(** * CongBase: the abstract congruence layer of libsemigroups

    A shallow embedding of [src/cong-base.cpp] and the properties of its
    member functions.  The object is a record of its data members, member
    functions are computations in a state-and-exception monad (the state at
    the point of a [throw] is kept, as in C++), and the virtual member
    functions that concrete congruence classes override are a record of
    functions over the state of the concrete class. *)

From stdpp Require Import base decidable option list numbers strings.
From Stdlib Require Import NArith Lia.

Local Open Scope N_scope.

(** ** Types of the interface *)

Definition letter_type := N.
Definition word_type := list letter_type.
Definition relation_type : Type := word_type * word_type.
Definition class_index_type := N.

(** Modelled from the spec: [constants.hpp] is not part of the sources at
    hand.  The spec calls [UNDEFINED] the sentinel value of a class index and
    of the generator count "not yet determined"; both are [size_t], and the
    sentinel is taken to be the largest 64-bit value, the "infinite" class
    count the one below it. *)
Definition UNDEFINED : N := 18446744073709551615.
Definition POSITIVE_INFINITY : N := 18446744073709551614.

(** [max_size()] of the vector of classes.  The standard library is not
    part of the sources at hand; the value is that of libstdc++ on a 64-bit
    target, [PTRDIFF_MAX / sizeof(std::vector<word_type>)] with a size of 24
    bytes.  [assign] of more elements throws [std::length_error]; running
    out of memory below that bound is not modelled. *)
Definition vector_max_size : N := 384307168202282325.

Inductive congruence_type := LEFT | RIGHT | TWOSIDED.

Inductive result_type := TRUE | FALSE | UNKNOWN.

#[global] Instance congruence_type_eq_dec : EqDecision congruence_type.
Proof. solve_decision. Defined.

(** A [FroidurePinBase*] is an address or [nullptr]. *)
Definition address := N.
Definition pointer := option address.
Abbreviation nullptr := (@None address).

(** Modelled from the spec: [froidure-pin-base.hpp] is not part of the
    sources at hand.  The parent structure exposes [size()],
    [factorise(outWord, position)], [areEqual(u, v)] and [generatorCount()];
    [factorisation] overwrites its output word, so it is a function of the
    position. *)
Module FroidurePinBase.
Record t := {
  size : N;
  factorisation : N -> word_type;
  equal_to : word_type -> word_type -> bool;
  nr_generators : N
}.
End FroidurePinBase.

(** ** Exceptions and outcomes

    Every [throw] of the file raises the one exception class of the library
    with a message; the constructors name the throw sites by their message. *)
Inductive exception :=
| generators_set_twice   (* the number of generators cannot be set more than once *)
| parent_not_defined     (* the parent semigroup is not defined *)
| not_two_sided          (* the congruence must be two-sided *)
| quotient_infinite      (* cannot find the quotient semigroup, it is infinite *)
| no_parent_for_classes  (* there's no parent semigroup in which to find the non-trivial classes *)
| no_generators          (* no generators have been defined *)
| invalid_letter (l : letter_type) (w : word_type) (n : N)
                         (* invalid letter l in word w, the valid range is [0, n) *)
| length_error           (* std::length_error, from vector::assign *)
| other (what : string). (* raised by an overriding member function *)

Inductive outcome (A : Type) :=
| Returns (a : A)
| Throws (e : exception)
| Aborts        (* a LIBSEMIGROUPS_ASSERT that fails in a debug build *)
| Undefined.    (* undefined behaviour: a call through a null pointer or
                   through a pointer to a deleted object, an index out of
                   range *)
Arguments Returns {A} a.
Arguments Throws {A} e.
Arguments Aborts {A}.
Arguments Undefined {A}.

(** ** The object *)

(** Modelled from the spec: [runner.hpp] is not part of the sources at hand.
    The cancellable computation exposes [isFinished()], [setFinished(bool)]
    and [isCancelled()]: two flags of the [Runner] base class. *)
Record Runner := { _finished : bool; _dead : bool }.

Definition finished (r : Runner) : bool := _finished r.
Definition dead (r : Runner) : bool := _dead r.
Definition set_finished (b : bool) (r : Runner) : Runner :=
  {| _finished := b; _dead := _dead r |}.

(** The data members of [CongBase]. *)
Record CongBase := {
  _gen_pairs : list relation_type;
  _init_ntc_done : bool;
  _non_trivial_classes : list (list word_type);
  _nrgens : N;
  _parent : pointer;
  _quotient : pointer;
  _type : congruence_type
}.

Definition with_gen_pairs (x : list relation_type) (c : CongBase) : CongBase :=
  {| _gen_pairs := x; _init_ntc_done := _init_ntc_done c;
     _non_trivial_classes := _non_trivial_classes c; _nrgens := _nrgens c;
     _parent := _parent c; _quotient := _quotient c; _type := _type c |}.
Definition with_init_ntc_done (x : bool) (c : CongBase) : CongBase :=
  {| _gen_pairs := _gen_pairs c; _init_ntc_done := x;
     _non_trivial_classes := _non_trivial_classes c; _nrgens := _nrgens c;
     _parent := _parent c; _quotient := _quotient c; _type := _type c |}.
Definition with_non_trivial_classes (x : list (list word_type)) (c : CongBase)
  : CongBase :=
  {| _gen_pairs := _gen_pairs c; _init_ntc_done := _init_ntc_done c;
     _non_trivial_classes := x; _nrgens := _nrgens c;
     _parent := _parent c; _quotient := _quotient c; _type := _type c |}.
Definition with_nrgens (x : N) (c : CongBase) : CongBase :=
  {| _gen_pairs := _gen_pairs c; _init_ntc_done := _init_ntc_done c;
     _non_trivial_classes := _non_trivial_classes c; _nrgens := x;
     _parent := _parent c; _quotient := _quotient c; _type := _type c |}.
Definition with_parent (x : pointer) (c : CongBase) : CongBase :=
  {| _gen_pairs := _gen_pairs c; _init_ntc_done := _init_ntc_done c;
     _non_trivial_classes := _non_trivial_classes c; _nrgens := _nrgens c;
     _parent := x; _quotient := _quotient c; _type := _type c |}.
Definition with_quotient (x : pointer) (c : CongBase) : CongBase :=
  {| _gen_pairs := _gen_pairs c; _init_ntc_done := _init_ntc_done c;
     _non_trivial_classes := _non_trivial_classes c; _nrgens := _nrgens c;
     _parent := _parent c; _quotient := x; _type := _type c |}.

(** Calls that leave the file: to the member functions a concrete class
    overrides, and to the parent structure.  They are recorded in the order
    they are made. *)
Inductive call :=
| call_word_to_class_index (w : word_type)
| call_nr_classes
| call_add_pair_impl (u v : word_type)
| call_set_nr_generators_impl (n : N)
| call_quotient_impl
| call_is_quotient_obviously_infinite
| call_factorisation (p : address) (pos : N)
| call_equal_to (p : address) (u v : word_type).

(** The virtual member functions, over the state [S] of the concrete class.
    The non-const ones may run the enumeration: they change [S] and the
    flags of [Runner], may throw, and are assumed not to re-enter the
    mutators of [CongBase]. *)
Record Impl (S : Type) := {
  word_to_class_index :
    word_type -> Runner * S -> outcome class_index_type * (Runner * S);
  const_word_to_class_index : Runner * S -> word_type -> class_index_type;
  nr_classes : Runner * S -> outcome N * (Runner * S);
  add_pair_impl : word_type -> word_type -> Runner * S -> outcome unit * (Runner * S);
  set_nr_generators_impl : N -> Runner * S -> outcome unit * (Runner * S);
  quotient_impl : Runner * S -> outcome pointer * (Runner * S);
  is_quotient_obviously_finite : Runner * S -> outcome bool * (Runner * S);
  is_quotient_obviously_infinite : Runner * S -> outcome bool * (Runner * S)
}.
Arguments word_to_class_index {S} _ _ _.
Arguments const_word_to_class_index {S} _ _ _.
Arguments nr_classes {S} _ _.
Arguments add_pair_impl {S} _ _ _ _.
Arguments set_nr_generators_impl {S} _ _ _.
Arguments quotient_impl {S} _ _.
Arguments is_quotient_obviously_finite {S} _ _.
Arguments is_quotient_obviously_infinite {S} _ _.

(** The bodies [CongBase] itself gives to its non-pure virtual functions. *)
Module Default.
Definition const_word_to_class_index {S} (_ : Runner * S) (_ : word_type)
  : class_index_type := UNDEFINED.
Definition is_quotient_obviously_finite {S} (s : Runner * S)
  : outcome bool * (Runner * S) := (Returns false, s).
Definition is_quotient_obviously_infinite {S} (s : Runner * S)
  : outcome bool * (Runner * S) := (Returns false, s).
Definition set_nr_generators_impl {S} (_ : N) (s : Runner * S)
  : outcome unit * (Runner * S) := (Returns tt, s).
End Default.

(** The object with its surroundings: the [CongBase] members, the [Runner]
    flags with the state of the concrete class, the objects that pointers
    refer to, the addresses passed to [delete], and the calls made. *)
Record World (S : Type) := {
  this : CongBase;
  sub : Runner * S;
  heap : address -> FroidurePinBase.t;
  deleted : list address;
  calls : list call
}.
Arguments this {S} _.
Arguments sub {S} _.
Arguments heap {S} _.
Arguments deleted {S} _.
Arguments calls {S} _.

(** ** Accessors and validation: const member functions *)

Definition CongBase_new (type : congruence_type) : CongBase :=
  {| _gen_pairs := []; _init_ntc_done := false; _non_trivial_classes := [];
     _nrgens := UNDEFINED; _parent := nullptr; _quotient := nullptr;
     _type := type |}.

Definition nr_generators (c : CongBase) : N := _nrgens c.

Definition nr_generating_pairs (c : CongBase) : N :=
  N.of_nat (length (_gen_pairs c)).

Definition cbegin_generating_pairs (c : CongBase) : list relation_type :=
  _gen_pairs c.

Definition has_parent_semigroup (c : CongBase) : bool :=
  bool_decide (_parent c <> nullptr).

Definition parent_semigroup (c : CongBase) : outcome pointer :=
  if negb (has_parent_semigroup c) then Throws parent_not_defined
  else Returns (_parent c).

Definition has_quotient_semigroup (c : CongBase) : bool :=
  bool_decide (_quotient c <> nullptr).

Definition type (c : CongBase) : congruence_type := _type c.

Definition validate_letter (c : CongBase) (l : letter_type) : outcome bool :=
  if bool_decide (nr_generators c = UNDEFINED) then Throws no_generators
  else Returns (l <? _nrgens c).

(** The loop of [validate_word] over the letters still to check; [w] is the
    whole word, kept for the message. *)
Fixpoint validate_letters (c : CongBase) (w rest : word_type) : outcome unit :=
  match rest with
  | [] => Returns tt
  | l :: rest' =>
      match validate_letter c l with
      | Returns true => validate_letters c w rest'
      | Returns false => Throws (invalid_letter l w (_nrgens c))
      | Throws e => Throws e
      | Aborts => Aborts
      | Undefined => Undefined
      end
  end.

Definition validate_word (c : CongBase) (w : word_type) : outcome unit :=
  validate_letters c w w.

Definition validate_relation (c : CongBase) (l r : word_type) : outcome unit :=
  match validate_word c l with
  | Returns _ => validate_word c r
  | o => o
  end.

Definition congruence_type_to_string (typ : congruence_type) : string :=
  match typ with
  | TWOSIDED => "two-sided"
  | LEFT => "left"
  | RIGHT => "right"
  end.

Section Semantics.
Context {St : Type}.
Variable impl : Impl St.
(** Whether [LIBSEMIGROUPS_DEBUG] is defined.  The header that declares
    [LIBSEMIGROUPS_ASSERT] is not part of the sources at hand; the macro is
    taken to be an assertion that is checked in a debug build and expands to
    nothing otherwise, and the kind of build is a parameter. *)
Variable LIBSEMIGROUPS_DEBUG : bool.

Definition M (A : Type) : Type := World St -> outcome A * World St.

Definition ret {A} (a : A) : M A := fun w => (Returns a, w).

Definition bind {A B} (m : M A) (k : A -> M B) : M B :=
  fun w =>
    match m w with
    | (Returns a, w') => k a w'
    | (Throws e, w') => (Throws e, w')
    | (Aborts, w') => (Aborts, w')
    | (Undefined, w') => (Undefined, w')
    end.

Definition throw {A} (e : exception) : M A := fun w => (Throws e, w).
Definition undefined {A} : M A := fun w => (Undefined, w).

Definition get : M CongBase := fun w => (Returns (this w), w).
Definition modify (f : CongBase -> CongBase) : M unit :=
  fun w => (Returns tt,
            {| this := f (this w); sub := sub w; heap := heap w;
               deleted := deleted w; calls := calls w |}).
Definition modify_runner (f : Runner -> Runner) : M unit :=
  fun w => (Returns tt,
            {| this := this w; sub := (f (sub w).1, (sub w).2); heap := heap w;
               deleted := deleted w; calls := calls w |}).
Definition log (c : call) : M unit :=
  fun w => (Returns tt,
            {| this := this w; sub := sub w; heap := heap w;
               deleted := deleted w; calls := calls w ++ [c] |}).

(** A const member function reads the object and may throw. *)
Definition const {A} (f : CongBase -> outcome A) : M A :=
  fun w => (f (this w), w).

(** A call of a virtual member function. *)
Definition virtual {A} (c : call)
    (f : Runner * St -> outcome A * (Runner * St)) : M A :=
  fun w =>
    let r := f (sub w) in
    (r.1, {| this := this w; sub := r.2; heap := heap w;
             deleted := deleted w; calls := calls w ++ [c] |}).

(** [delete p]: nothing for [nullptr]. *)
Definition delete (p : pointer) : M unit :=
  fun w =>
    match p with
    | None => (Returns tt, w)
    | Some a => (Returns tt,
                 {| this := this w; sub := sub w; heap := heap w;
                    deleted := deleted w ++ [a]; calls := calls w |})
    end.

(** [LIBSEMIGROUPS_ASSERT(c)]: the condition is not even evaluated in a
    release build. *)
Definition LIBSEMIGROUPS_ASSERT (c : M bool) : M unit :=
  if LIBSEMIGROUPS_DEBUG
  then bind c (fun b => if b then ret tt else fun w => (Aborts, w))
  else ret tt.

Definition get_runner : M Runner := fun w => (Returns (sub w).1, w).

(** A call through a [FroidurePinBase*].  Through [nullptr], and through
    the address of an object that was passed to [delete], it is undefined
    behaviour.  An address names an object: the address of a deleted object
    is not given to another one. *)
Definition deref {A} (p : pointer) (f : FroidurePinBase.t -> A) : M A :=
  fun w =>
    match p with
    | None => (Undefined, w)
    | Some a =>
        if bool_decide (a ∈ deleted w) then (Undefined, w)
        else (Returns (f (heap w a)), w)
    end.

Definition logged (p : pointer) (c : address -> call) : M unit :=
  match p with
  | None => ret tt
  | Some a => log (c a)
  end.

Notation "'let*' x := m 'in' k" := (bind m (fun x => k))
  (at level 10, x name, m at level 100, k at level 200, only parsing).
Notation "m ;;; k" := (bind m (fun _ => k))
  (at level 100, k at level 200, right associativity, only parsing).

(** *** Membership and ordering *)

(** The two classifications are made left to right. *)
Definition contains (w1 w2 : word_type) : M bool :=
  if bool_decide (w1 = w2) then ret true
  else
    let* i1 := virtual (call_word_to_class_index w1)
                       (word_to_class_index impl w1) in
    let* i2 := virtual (call_word_to_class_index w2)
                       (word_to_class_index impl w2) in
    ret (bool_decide (i1 = i2)).

Definition const_contains (u v : word_type) (w : World St) : result_type :=
  if bool_decide (const_word_to_class_index impl (sub w) u = UNDEFINED)
     || bool_decide (const_word_to_class_index impl (sub w) v = UNDEFINED)
  then UNKNOWN
  else if bool_decide (const_word_to_class_index impl (sub w) u
                       = const_word_to_class_index impl (sub w) v)
  then TRUE
  else if finished (sub w).1 then FALSE
  else UNKNOWN.

Definition less (w1 w2 : word_type) : M bool :=
  let* i1 := virtual (call_word_to_class_index w1)
                     (word_to_class_index impl w1) in
  let* i2 := virtual (call_word_to_class_index w2)
                     (word_to_class_index impl w2) in
  ret (i1 <? i2).

(** *** Generators and pairs *)

Definition set_nr_generators (n : N) : M unit :=
  let* c := get in
  if bool_decide (nr_generators c <> UNDEFINED) then throw generators_set_twice
  else
    modify (with_nrgens n) ;;;
    virtual (call_set_nr_generators_impl n) (set_nr_generators_impl impl n).

Definition add_pair (u v : word_type) : M unit :=
  const (fun c => validate_word c u) ;;;
  const (fun c => validate_word c v) ;;;
  if bool_decide (u = v) then ret tt
  else
    let* c := get in
    let* known :=
      (if has_parent_semigroup c then
         if has_parent_semigroup c then
           let* p := const parent_semigroup in
           logged p (fun a => call_equal_to a u v) ;;;
           deref p (fun o => FroidurePinBase.equal_to o u v)
         else ret false
       else ret false) in
    if known then ret tt
    else
      modify (fun c => with_gen_pairs (_gen_pairs c ++ [(u, v)]) c) ;;;
      (let* c := get in delete (_quotient c)) ;;;
      modify (with_quotient nullptr) ;;;
      modify_runner (set_finished false) ;;;
      virtual (call_add_pair_impl u v) (add_pair_impl impl u v).

(** *** Parent and quotient *)

Definition quotient_semigroup : M pointer :=
  let* c := get in
  if bool_decide (type c <> TWOSIDED) then throw not_two_sided
  else
    let* infinite := virtual call_is_quotient_obviously_infinite
                             (is_quotient_obviously_infinite impl) in
    if infinite then throw quotient_infinite
    else
      (let* c := get in
       if bool_decide (_quotient c = nullptr)
       then let* q := virtual call_quotient_impl (quotient_impl impl) in
            modify (with_quotient q)
       else ret tt) ;;;
      let* c := get in
      ret (_quotient c).

Definition set_parent_semigroup (prnt : pointer) : M unit :=
  LIBSEMIGROUPS_ASSERT
    (let* r := get_runner in ret (bool_decide (prnt <> nullptr) || dead r)) ;;;
  let* c := get in
  if bool_decide (prnt = _parent c) then ret tt
  else
    LIBSEMIGROUPS_ASSERT
      (let* r := get_runner in
       ret (bool_decide (_parent c = nullptr) || dead r)) ;;;
    LIBSEMIGROUPS_ASSERT
      (let* n := deref prnt FroidurePinBase.nr_generators in
       let* r := get_runner in
       ret (bool_decide (n = nr_generators c)
            || bool_decide (nr_generators c = UNDEFINED) || dead r)) ;;;
    modify (with_parent prnt) ;;;
    let* c := get in
    if bool_decide (_gen_pairs c = []) then modify (with_quotient prnt)
    else ret tt.

(** The destructor. *)
Definition destroy : M unit :=
  let* c := get in
  if bool_decide (_parent c <> _quotient c) then delete (_quotient c)
  else ret tt.

(** *** Non-trivial classes *)

(** [v[i].push_back(w)]; indexing past the end is undefined behaviour. *)
Definition push_back_at (i : N) (w : word_type) (v : list (list word_type))
  : option (list (list word_type)) :=
  if decide (N.to_nat i < length v)%nat
  then Some (alter (fun klass => klass ++ [w]) (N.to_nat i) v)
  else None.

(** The body of the [for] loop at position [pos], then the remaining
    iterations; the size of the parent does not change, so the loop runs
    [size()] times. *)
Fixpoint scan (p : pointer) (remaining : nat) (pos : N) : M unit :=
  match remaining with
  | O => ret tt
  | Datatypes.S r =>
      logged p (fun a => call_factorisation a pos) ;;;
      let* w := deref p (fun o => FroidurePinBase.factorisation o pos) in
      let* i := virtual (call_word_to_class_index w)
                        (word_to_class_index impl w) in
      let* c := get in
      match push_back_at i w (_non_trivial_classes c) with
      | None => undefined
      | Some v => modify (with_non_trivial_classes v)
      end ;;;
      LIBSEMIGROUPS_ASSERT
        (let* j := virtual (call_word_to_class_index w)
                           (word_to_class_index impl w) in
         let* c := get in
         ret (j <? N.of_nat (length (_non_trivial_classes c)))) ;;;
      scan p r (pos + 1)
  end.

Definition init_non_trivial_classes : M unit :=
  let* c := get in
  if _init_ntc_done c then ret tt
  else if bool_decide (_parent c = nullptr) then throw no_parent_for_classes
  else
    LIBSEMIGROUPS_ASSERT
      (let* n := virtual call_nr_classes (nr_classes impl) in
       ret (bool_decide (n <> POSITIVE_INFINITY))) ;;;
    modify (with_init_ntc_done true) ;;;
    let* n := virtual call_nr_classes (nr_classes impl) in
    (if n <=? vector_max_size
     then modify (with_non_trivial_classes (replicate (N.to_nat n) []))
     else throw length_error) ;;;
    let* size := deref (_parent c) FroidurePinBase.size in
    scan (_parent c) (N.to_nat size) 0 ;;;
    modify (fun c =>
              with_non_trivial_classes
                (filter (fun klass : list word_type => ~ (length klass <= 1)%nat)
                        (_non_trivial_classes c)) c).

(** An iterator into [_non_trivial_classes]: the vector and a position. *)
Definition ntc_iterator : Type := list (list word_type) * nat.

Definition cbegin_ntc : M ntc_iterator :=
  init_non_trivial_classes ;;;
  let* c := get in
  ret (_non_trivial_classes c, O).

Definition cend_ntc : M ntc_iterator :=
  init_non_trivial_classes ;;;
  let* c := get in
  ret (_non_trivial_classes c, length (_non_trivial_classes c)).

Definition nr_non_trivial_classes : M N :=
  init_non_trivial_classes ;;;
  let* c := get in
  ret (N.of_nat (length (_non_trivial_classes c))).

End Semantics.

Arguments ret {St A} a _.
Arguments bind {St A B} m k _.

(** The constructor: a fresh object over the initial state [s] of the
    concrete class, in a store [h] of parent structures. *)
Definition World_new {St} (type : congruence_type) (s : St)
    (h : address -> FroidurePinBase.t) : World St :=
  {| this := CongBase_new type;
     sub := ({| _finished := false; _dead := false |}, s);
     heap := h; deleted := []; calls := [] |}.

(** ** A concrete class and a parent structure, for running the model *)
Module Example.

(** Five elements, the [pos]-th factorising to the one-letter word [pos]. *)
Definition parent : FroidurePinBase.t :=
  {| FroidurePinBase.size := 5;
     FroidurePinBase.factorisation := fun pos => [pos];
     FroidurePinBase.equal_to := fun u v => bool_decide (u = v);
     FroidurePinBase.nr_generators := 5 |}.

Definition store (_ : address) : FroidurePinBase.t := parent.

(** Words [0] and [1] are in class 0, [2] in class 1, the others in
    class 2. *)
Definition class_of (w : word_type) : class_index_type :=
  match w with
  | [0] | [1] => 0
  | [2] => 1
  | _ => 2
  end.

(** A class that knows its classification once it has run; its state
    counts the quotients it has built, to give each a new address. *)
Definition impl : Impl nat :=
  {| word_to_class_index := fun w s =>
       (Returns (class_of w), (set_finished true s.1, s.2));
     const_word_to_class_index := fun s w =>
       if finished s.1 then class_of w else UNDEFINED;
     nr_classes := fun s => (Returns 3, (set_finished true s.1, s.2));
     add_pair_impl := fun _ _ s => (Returns tt, s);
     set_nr_generators_impl := Default.set_nr_generators_impl;
     quotient_impl := fun s =>
       (Returns (Some (100 + N.of_nat s.2)), (s.1, Datatypes.S s.2));
     is_quotient_obviously_finite := Default.is_quotient_obviously_finite;
     is_quotient_obviously_infinite := Default.is_quotient_obviously_infinite |}.

Definition fresh (type : congruence_type) : World nat :=
  World_new type O store.

(** The state of a world after a computation, whatever its outcome. *)
Definition after {A} (m : World nat -> outcome A * World nat)
    (w : World nat) : World nat := (m w).2.

End Example.

(** ** Notions used in the statements *)

(** The addresses that [delete p] passes to the deallocator. *)
Definition released (p : pointer) : list address :=
  match p with
  | Some a => [a]
  | None => []
  end.

(** Whether the parent, if there is one, already equates [u] and [v], and
    the call that asks it. *)
Definition parent_equates {St} (w : World St) (u v : word_type) : bool :=
  match _parent (this w) with
  | Some a => FroidurePinBase.equal_to (heap w a) u v
  | None => false
  end.

Definition parent_asked {St} (w : World St) (u v : word_type) : list call :=
  match _parent (this w) with
  | Some a => [call_equal_to a u v]
  | None => []
  end.

(** The member functions that change the object, as a caller may invoke
    them one after another. *)
Inductive operation :=
| do_set_nr_generators (n : N)
| do_add_pair (u v : word_type)
| do_contains (w1 w2 : word_type)
| do_less (w1 w2 : word_type)
| do_quotient_semigroup
| do_set_parent_semigroup (prnt : pointer)
| do_cbegin_ntc
| do_cend_ntc
| do_nr_non_trivial_classes.

(** The world an operation leaves, whether it returned or threw. *)
Definition perform {St} (impl : Impl St) (debug : bool) (o : operation)
    (w : World St) : World St :=
  match o with
  | do_set_nr_generators n => (set_nr_generators impl n w).2
  | do_add_pair u v => (add_pair impl u v w).2
  | do_contains w1 w2 => (contains impl w1 w2 w).2
  | do_less w1 w2 => (less impl w1 w2 w).2
  | do_quotient_semigroup => (quotient_semigroup impl w).2
  | do_set_parent_semigroup prnt => (set_parent_semigroup debug prnt w).2
  | do_cbegin_ntc => (cbegin_ntc impl debug w).2
  | do_cend_ntc => (cend_ntc impl debug w).2
  | do_nr_non_trivial_classes => (nr_non_trivial_classes impl debug w).2
  end.

Definition perform_all {St} (impl : Impl St) (debug : bool)
    (ops : list operation) (w : World St) : World St :=
  fold_left (fun x o => perform impl debug o x) ops w.

(** The indices [0], ..., [n - 1]. *)
Definition positions (n : N) : list N := N.of_nat <$> seq 0 (N.to_nat n).

(** The words the elements of a parent structure factorise to, by
    position. *)
Definition factorised (p : FroidurePinBase.t) : list word_type :=
  FroidurePinBase.factorisation p <$> positions (FroidurePinBase.size p).

(** The words of [ws] that a classification [cls] puts in class [c], in the
    order of [ws]. *)
Definition bucket (cls : word_type -> class_index_type) (ws : list word_type)
    (c : class_index_type) : list word_type :=
  filter (fun x => cls x = c) ws.

(** The grouping as the specification words it: the factorised words are
    bucketed by class index, and the classes with at least two of them are
    kept. *)
Definition non_trivial_classes_spec (cls : word_type -> class_index_type)
    (n : N) (ws : list word_type) : list (list word_type) :=
  filter (fun klass => (2 <= length klass)%nat) (bucket cls ws <$> positions n).

(** The calls of one exhaustive scan of the parent at address [a]: for each
    position its factorisation and the classification of the word (asked
    once more by the assertion of a debug build). *)
Definition scan_calls (debug : bool) (a : address) (p : FroidurePinBase.t)
    (ps : list N) : list call :=
  ps ≫= fun pos =>
    [call_factorisation a pos;
     call_word_to_class_index (FroidurePinBase.factorisation p pos)]
    ++ (if debug
        then [call_word_to_class_index (FroidurePinBase.factorisation p pos)]
        else []).

(** [keeps R m]: the data members after [m], whatever its outcome, are
    related by [R] to those before.  For a preorder [R] this composes along
    the monad. *)
Definition keeps {St A} (R : relation CongBase)
    (m : World St -> outcome A * World St) : Prop :=
  forall w, R (this w) (this (m w).2).

(** The cache of the non-trivial classes and its flag are the same. *)
Definition same_classes (c c' : CongBase) : Prop :=
  _init_ntc_done c' = _init_ntc_done c
  /\ _non_trivial_classes c' = _non_trivial_classes c.

(** The flag of the cache is the same. *)
Definition same_flag (c c' : CongBase) : Prop :=
  _init_ntc_done c' = _init_ntc_done c.

(** ** Notions used for the remaining member functions *)

(** The blocking classification of [impl] answers [cls] in every state of
    the concrete class that [stable] holds of, and keeps [stable]. *)
Definition answers {St} (impl : Impl St) (stable : Runner * St -> Prop)
    (cls : word_type -> class_index_type) : Prop :=
  forall s x, stable s ->
    (word_to_class_index impl x s).1 = Returns (cls x)
    /\ stable (word_to_class_index impl x s).2.

(** What is fixed in an object: the kind, the generator count once it is
    set, and the pairs recorded so far, to which more may be appended. *)
Definition grows (c c' : CongBase) : Prop :=
  _gen_pairs c `prefix_of` _gen_pairs c'
  /\ _type c' = _type c
  /\ (_nrgens c <> UNDEFINED -> _nrgens c' = _nrgens c).

(** Every recorded pair is made of two different words that validate. *)
Definition pairs_valid (c : CongBase) : Prop :=
  Forall (fun p : relation_type =>
            p.1 <> p.2
            /\ validate_word c p.1 = Returns tt
            /\ validate_word c p.2 = Returns tt)
         (_gen_pairs c).

(** While no pair is recorded, an attached parent is the quotient. *)
Definition parent_is_quotient (c : CongBase) : Prop :=
  _gen_pairs c = [] -> _parent c <> nullptr -> _quotient c = _parent c.

(** [preserves R m]: the world after [m], whatever its outcome, is related
    by [R] to the world before. *)
Definition preserves {St A} (R : relation (World St))
    (m : World St -> outcome A * World St) : Prop :=
  forall w, R w (m w).2.

(** Nothing was deleted and the store of parent structures is the same. *)
Definition same_store {St} (w w' : World St) : Prop :=
  deleted w' = deleted w /\ heap w' = heap w.

Definition is_add_pair (o : operation) : bool :=
  match o with
  | do_add_pair _ _ => true
  | _ => false
  end.

(** A second parent structure for running the model: one element, and
    every two words equal in it.  It lives at address 2 of [store]. *)
Module Collapsed.

Definition parent : FroidurePinBase.t :=
  {| FroidurePinBase.size := 1;
     FroidurePinBase.factorisation := fun _ => [0];
     FroidurePinBase.equal_to := fun _ _ => true;
     FroidurePinBase.nr_generators := 5 |}.

Definition store (a : address) : FroidurePinBase.t :=
  if a =? 2 then parent else Example.parent.

Definition fresh (type : congruence_type) : World nat :=
  World_new type O store.

End Collapsed.

(** The data members other than the cache of the non-trivial classes are
    the same. *)
Definition same_members (c c' : CongBase) : Prop :=
  _gen_pairs c' = _gen_pairs c
  /\ _nrgens c' = _nrgens c
  /\ _parent c' = _parent c
  /\ _quotient c' = _quotient c
  /\ _type c' = _type c.

(** The ways in which a member function changes the data members: it
    touches the cache of the non-trivial classes at most; it records a
    valid pair of different words and clears the quotient; it sets an unset
    generator count; it fills an empty quotient pointer; it attaches
    another parent, which is the quotient too when no pair is recorded. *)
Inductive changes : CongBase -> CongBase -> Prop :=
| changes_cache c c' :
    same_members c c' -> changes c c'
| changes_pair c u v :
    validate_word c u = Returns tt -> validate_word c v = Returns tt ->
    u <> v ->
    changes c (with_quotient nullptr
                 (with_gen_pairs (_gen_pairs c ++ [(u, v)]) c))
| changes_count c n :
    _nrgens c = UNDEFINED -> changes c (with_nrgens n c)
| changes_quotient c q :
    _quotient c = nullptr -> changes c (with_quotient q c)
| changes_parent c prnt :
    prnt <> _parent c ->
    changes c (if bool_decide (_gen_pairs c = [])
               then with_quotient prnt (with_parent prnt c)
               else with_parent prnt c).

(** The world after [set_parent_semigroup] has attached [prnt]. *)
Definition attached {St} (prnt : pointer) (w : World St) : World St :=
  {| this := if bool_decide (_gen_pairs (this w) = [])
             then with_quotient prnt (with_parent prnt (this w))
             else with_parent prnt (this w);
     sub := sub w; heap := heap w; deleted := deleted w; calls := calls w |}.

(** A concrete class whose classification is interrupted: it knows its
    three classes, and every blocking classification throws. *)
Module Interrupted.

Definition impl : Impl nat :=
  {| word_to_class_index := fun _ s => (Throws (other "interrupted"), s);
     const_word_to_class_index := Default.const_word_to_class_index;
     nr_classes := fun s => (Returns 3, s);
     add_pair_impl := fun _ _ s => (Returns tt, s);
     set_nr_generators_impl := Default.set_nr_generators_impl;
     quotient_impl := fun s => (Throws (other "interrupted"), s);
     is_quotient_obviously_finite := Default.is_quotient_obviously_finite;
     is_quotient_obviously_infinite := Default.is_quotient_obviously_infinite |}.

End Interrupted.

(** The parent pointer, if it is not null, refers to an object that was
    not deleted. *)
Definition parent_live {St} (w : World St) : Prop :=
  forall a, _parent (this w) = Some a -> a ∉ deleted w.

Definition is_set_parent_semigroup (o : operation) : bool :=
  match o with
  | do_set_parent_semigroup _ => true
  | _ => false
  end.

(** The quotient pointer and the kind are the same. *)
Definition same_quotient (c c' : CongBase) : Prop :=
  _quotient c' = _quotient c /\ _type c' = _type c.

(** * Properties *)

(** ** Validation *)

Lemma validate_letters_unset (c : CongBase) (w rest : word_type) :
  nr_generators c = UNDEFINED -> rest <> [] ->
  validate_letters c w rest = Throws no_generators.
Proof.
  intros Hn Hne. destruct rest as [|l rest']; [done|].
  simpl. unfold validate_letter. rewrite bool_decide_eq_true_2; done.
Qed.

Lemma validate_letters_outcome (c : CongBase) (w rest : word_type) :
  validate_letters c w rest = Returns tt
  \/ exists e, validate_letters c w rest = Throws e.
Proof.
  induction rest as [|l rest' IH]; simpl; [by left|].
  unfold validate_letter. case_bool_decide; [right; eauto|].
  destruct (l <? _nrgens c); [apply IH | right; eauto].
Qed.

Lemma validate_letters_ok (c : CongBase) (w rest : word_type) :
  nr_generators c <> UNDEFINED ->
  validate_letters c w rest = Returns tt <-> Forall (fun l => l < _nrgens c) rest.
Proof.
  intros Hn. induction rest as [|l rest' IH]; simpl.
  - split; [constructor | done].
  - unfold validate_letter. rewrite bool_decide_eq_false_2 by done.
    destruct (N.ltb_spec l (_nrgens c)) as [Hl|Hl].
    + rewrite IH. split; [by constructor | by inversion 1].
    + split; [done | inversion 1; lia].
Qed.

(** ** Membership *)

(** C1.  The decision table of [const_contains]: an undefined class index of
    either word gives UNKNOWN; two defined and equal indices give TRUE,
    finished or not; two defined and different indices give FALSE when the
    computation is finished and UNKNOWN when it is not. *)
Theorem const_contains_decision_table {St} (impl : Impl St) (w : World St)
    (u v : word_type) :
  let cu := const_word_to_class_index impl (sub w) u in
  let cv := const_word_to_class_index impl (sub w) v in
  (cu = UNDEFINED \/ cv = UNDEFINED -> const_contains impl u v w = UNKNOWN)
  /\ (cu <> UNDEFINED -> cv <> UNDEFINED -> cu = cv ->
      const_contains impl u v w = TRUE)
  /\ (cu <> UNDEFINED -> cv <> UNDEFINED -> cu <> cv ->
      finished (sub w).1 = true -> const_contains impl u v w = FALSE)
  /\ (cu <> UNDEFINED -> cv <> UNDEFINED -> cu <> cv ->
      finished (sub w).1 = false -> const_contains impl u v w = UNKNOWN).
Proof.
  intros cu cv. unfold const_contains. fold cu cv.
  repeat split.
  - intros [H|H]; rewrite H; [done|].
    by rewrite (bool_decide_eq_true_2 (UNDEFINED = UNDEFINED)), orb_true_r.
  - intros Hu Hv Heq.
    rewrite (bool_decide_eq_false_2 _ Hu), (bool_decide_eq_false_2 _ Hv).
    by rewrite (bool_decide_eq_true_2 _ Heq).
  - intros Hu Hv Hne Hf.
    rewrite (bool_decide_eq_false_2 _ Hu), (bool_decide_eq_false_2 _ Hv).
    by rewrite (bool_decide_eq_false_2 _ Hne), Hf.
  - intros Hu Hv Hne Hf.
    rewrite (bool_decide_eq_false_2 _ Hu), (bool_decide_eq_false_2 _ Hv).
    by rewrite (bool_decide_eq_false_2 _ Hne), Hf.
Qed.

Lemma const_contains_decision_table_witness :
  let w := Example.after (contains Example.impl [0] [2]) (Example.fresh TWOSIDED) in
  const_word_to_class_index Example.impl (sub w) [0] <> UNDEFINED
  /\ const_word_to_class_index Example.impl (sub w) [2] <> UNDEFINED
  /\ const_word_to_class_index Example.impl (sub w) [0]
     <> const_word_to_class_index Example.impl (sub w) [2]
  /\ finished (sub w).1 = true
  /\ const_contains Example.impl [0] [2] w = FALSE.
Proof.
  intros w.
  assert (H0 : const_word_to_class_index Example.impl (sub w) [0] <> UNDEFINED)
    by (vm_compute; discriminate).
  assert (H2 : const_word_to_class_index Example.impl (sub w) [2] <> UNDEFINED)
    by (vm_compute; discriminate).
  assert (Hne : const_word_to_class_index Example.impl (sub w) [0]
                <> const_word_to_class_index Example.impl (sub w) [2])
    by (vm_compute; discriminate).
  assert (Hf : finished (sub w).1 = true) by reflexivity.
  split; [exact H0|]. split; [exact H2|]. split; [exact Hne|]. split; [exact Hf|].
  exact (proj1 (proj2 (proj2 (const_contains_decision_table Example.impl w [0] [2])))
               H0 H2 Hne Hf).
Defined.

Lemma contains_literally_equal {St} (impl : Impl St) (w : World St)
    (w1 w2 : word_type) :
  w1 = w2 -> contains impl w1 w2 w = (Returns true, w).
Proof.
  intros H. unfold contains. by rewrite bool_decide_eq_true_2.
Qed.

(** C9.  [contains(w, w)] is true and leaves the world as it was: no
    classification is called, no state of the concrete class is touched. *)
Theorem contains_same_word {St} (impl : Impl St) (w : World St) (x : word_type) :
  contains impl x x w = (Returns true, w).
Proof.
  by apply contains_literally_equal.
Qed.

(** C3, as stated, fails: with no generator count set, the word [5] does
    not validate, yet [contains] answers true for it. *)
Lemma contains_skips_validation :
  validate_word (this (Example.fresh TWOSIDED)) [5] = Throws no_generators
  /\ contains Example.impl [5] [5] (Example.fresh TWOSIDED)
     = (Returns true, Example.fresh TWOSIDED).
Proof. split; reflexivity. Qed.

(** C3, amended.  [contains] does not validate its arguments.  Equal words
    give true with nothing called and nothing changed, whatever their
    letters and the generator count.  For different words the answer is the
    equality of the two class indices that the blocking classification
    returns, for [w1] and then for [w2]; and [contains] throws only what one
    of these two classifications throws. *)
Theorem contains_unvalidated {St} (impl : Impl St) (w : World St)
    (w1 w2 : word_type) :
  (w1 = w2 -> contains impl w1 w2 w = (Returns true, w))
  /\ (w1 <> w2 ->
      forall i1 s1 i2 s2,
        word_to_class_index impl w1 (sub w) = (Returns i1, s1) ->
        word_to_class_index impl w2 s1 = (Returns i2, s2) ->
        contains impl w1 w2 w
        = (Returns (bool_decide (i1 = i2)),
           {| this := this w; sub := s2; heap := heap w; deleted := deleted w;
              calls := calls w ++ [call_word_to_class_index w1;
                                   call_word_to_class_index w2] |}))
  /\ (forall e w', contains impl w1 w2 w = (Throws e, w') ->
      w1 <> w2
      /\ ((word_to_class_index impl w1 (sub w)).1 = Throws e
          \/ exists i1 s1,
               word_to_class_index impl w1 (sub w) = (Returns i1, s1)
               /\ (word_to_class_index impl w2 s1).1 = Throws e)).
Proof.
  split; [|split].
  - apply contains_literally_equal.
  - intros Hne i1 s1 i2 s2 H1 H2. unfold contains.
    rewrite bool_decide_eq_false_2 by done.
    unfold bind, virtual, ret; simpl. rewrite H1; simpl. rewrite H2; simpl.
    by rewrite <- app_assoc.
  - intros e w'. unfold contains. case_bool_decide as Hne; [done|].
    unfold bind, virtual, ret; simpl.
    destruct (word_to_class_index impl w1 (sub w)) as [[i1| | |] s1] eqn:H1;
      simpl; try (intros [= <- <-]; split; [done | by left]); try done.
    destruct (word_to_class_index impl w2 s1) as [[i2| | |] s2] eqn:H2;
      simpl; try done.
    intros [= <- <-]. split; [done|]. right. exists i1, s1. by rewrite H2.
Qed.

Lemma contains_unvalidated_witness :
  [0] <> [2]
  /\ word_to_class_index Example.impl [0] (sub (Example.fresh TWOSIDED))
     = (Returns 0, ({| _finished := true; _dead := false |}, O))
  /\ word_to_class_index Example.impl [2]
       ({| _finished := true; _dead := false |}, O)
     = (Returns 1, ({| _finished := true; _dead := false |}, O))
  /\ (contains Example.impl [0] [2] (Example.fresh TWOSIDED)).1 = Returns false.
Proof.
  assert (Hne : [0] <> [2] :> word_type) by discriminate.
  split; [exact Hne|]. split; [reflexivity|]. split; [reflexivity|].
  rewrite (proj1 (proj2 (contains_unvalidated Example.impl (Example.fresh TWOSIDED)
                           [0] [2])) Hne 0 _ 1 _ eq_refl eq_refl).
  reflexivity.
Defined.

(** C4, as stated, fails for the empty word: with no generator count set,
    the empty word validates and [add_pair] of two empty words returns. *)
Lemma validate_empty_word_unset :
  nr_generators (this (Example.fresh TWOSIDED)) = UNDEFINED
  /\ validate_word (this (Example.fresh TWOSIDED)) [] = Returns tt
  /\ add_pair Example.impl [] [] (Example.fresh TWOSIDED)
     = (Returns tt, Example.fresh TWOSIDED).
Proof. repeat split; reflexivity. Qed.

(** C4, amended.  While the generator count is unset, [validate_word] of
    every non-empty word throws "no generators have been defined", whatever
    its letters: the test of the count comes before the range test of the
    first letter.  So does [add_pair] of two words of which one is not
    empty, which changes nothing.  The empty word has no letter to test and
    validates. *)
Theorem validate_word_unset {St} (impl : Impl St) (w : World St)
    (x u v : word_type) :
  nr_generators (this w) = UNDEFINED ->
  (x <> [] -> validate_word (this w) x = Throws no_generators)
  /\ validate_word (this w) [] = Returns tt
  /\ (u <> [] \/ v <> [] -> add_pair impl u v w = (Throws no_generators, w)).
Proof.
  intros Hn. split; [|split].
  - intros Hx. by apply validate_letters_unset.
  - done.
  - intros Huv. unfold add_pair, bind, const.
    destruct u as [|a u'].
    + destruct Huv as [?|Hv]; [done|]. simpl.
      unfold validate_word. by rewrite validate_letters_unset.
    + unfold validate_word. by rewrite validate_letters_unset.
Qed.

Lemma validate_word_unset_witness :
  nr_generators (this (Example.fresh LEFT)) = UNDEFINED
  /\ [7; 0] <> ([] : word_type)
  /\ validate_word (this (Example.fresh LEFT)) [7; 0] = Throws no_generators
  /\ add_pair Example.impl [] [7; 0] (Example.fresh LEFT)
     = (Throws no_generators, Example.fresh LEFT).
Proof.
  assert (Hn : nr_generators (this (Example.fresh LEFT)) = UNDEFINED)
    by reflexivity.
  assert (Hx : [7; 0] <> ([] : word_type)) by discriminate.
  pose proof (validate_word_unset Example.impl (Example.fresh LEFT)
                [7; 0] [] [7; 0] Hn) as (H1 & _ & H3).
  split; [exact Hn|]. split; [exact Hx|]. split; [exact (H1 Hx)|].
  exact (H3 (or_intror Hx)).
Defined.

(** C10.  When the validation of [u], or that of [v] after it, throws,
    [add_pair(u, v)] throws the same exception and the world is the one it
    started in: pair list, quotient, finished flag and the state of the
    concrete class are untouched, nothing is deleted and nothing called. *)
Theorem add_pair_validation_failure {St} (impl : Impl St) (w : World St)
    (u v : word_type) (e : exception) :
  validate_word (this w) u = Throws e
  \/ (validate_word (this w) u = Returns tt /\ validate_word (this w) v = Throws e) ->
  add_pair impl u v w = (Throws e, w).
Proof.
  unfold add_pair, bind, const.
  intros [Hu | [Hu Hv]]; rewrite Hu; [done|]. by rewrite Hv.
Qed.

Lemma add_pair_validation_failure_witness :
  let w := Example.after (set_nr_generators Example.impl 2) (Example.fresh TWOSIDED) in
  validate_word (this w) [0; 1] = Returns tt
  /\ validate_word (this w) [1; 2] = Throws (invalid_letter 2 [1; 2] 2)
  /\ add_pair Example.impl [0; 1] [1; 2] w = (Throws (invalid_letter 2 [1; 2] 2), w).
Proof.
  intros w.
  assert (Hu : validate_word (this w) [0; 1] = Returns tt) by reflexivity.
  assert (Hv : validate_word (this w) [1; 2] = Throws (invalid_letter 2 [1; 2] 2))
    by reflexivity.
  split; [exact Hu|]. split; [exact Hv|].
  exact (add_pair_validation_failure Example.impl w [0; 1] [1; 2] _
           (or_intror (conj Hu Hv))).
Defined.

(** ** Pairs and the quotient *)

(** The effect of an [add_pair] that records its pair, on an object whose
    parent, if any, is alive: the pair is appended, the quotient pointer is
    passed to [delete] whether or not it is the parent, the pointer is
    cleared, the finished flag is reset and the concrete class is told. *)
Lemma add_pair_records {St} (impl : Impl St) (w : World St) (u v : word_type) :
  validate_word (this w) u = Returns tt ->
  validate_word (this w) v = Returns tt ->
  u <> v ->
  parent_live w ->
  parent_equates w u v = false ->
  add_pair impl u v w
  = ((add_pair_impl impl u v (set_finished false (sub w).1, (sub w).2)).1,
     {| this := with_quotient nullptr
                  (with_gen_pairs (_gen_pairs (this w) ++ [(u, v)]) (this w));
        sub := (add_pair_impl impl u v (set_finished false (sub w).1, (sub w).2)).2;
        heap := heap w;
        deleted := deleted w ++ released (_quotient (this w));
        calls := (calls w ++ parent_asked w u v) ++ [call_add_pair_impl u v] |}).
Proof.
  intros Hu Hv Hne Hlive Heq. unfold add_pair, bind at 1, const. rewrite Hu.
  unfold bind at 1. rewrite Hv. rewrite bool_decide_eq_false_2 by done.
  unfold parent_equates, parent_asked, parent_live in *.
  unfold bind, get, const, parent_semigroup, has_parent_semigroup, logged,
    deref, log, modify, modify_runner, delete, virtual, ret; simpl.
  destruct w as [c s h d l]; simpl in *.
  destruct (_parent c) as [a|] eqn:Hp; simpl; rewrite ?Hp; simpl.
  - rewrite (bool_decide_eq_false_2 _ (Hlive a eq_refl)). simpl.
    rewrite Heq. destruct c as [? ? ? ? ? q ?]; simpl in *.
    destruct q; simpl; by rewrite ?app_nil_r.
  - destruct c as [? ? ? ? ? q ?]; simpl in *.
    destruct q; simpl; by rewrite ?app_nil_r.
Qed.

(** The destructor does not release a quotient that is the parent. *)
Lemma destroy_spares_alias {St} (w : World St) :
  _quotient (this w) = _parent (this w) -> destroy w = (Returns tt, w).
Proof.
  intros H. unfold destroy, bind, get. simpl.
  by rewrite bool_decide_eq_false_2 by (rewrite H; tauto).
Qed.

(** The destructor releases a quotient that is not the parent, once. *)
Lemma destroy_releases_owned {St} (w : World St) :
  _quotient (this w) <> _parent (this w) ->
  destroy w = (Returns tt,
               {| this := this w; sub := sub w; heap := heap w;
                  deleted := deleted w ++ released (_quotient (this w));
                  calls := calls w |}).
Proof.
  intros H. unfold destroy, bind, get, delete. simpl.
  rewrite bool_decide_eq_true_2 by congruence.
  destruct w as [c s h d l]; simpl in *.
  destruct (_quotient c); simpl; by rewrite ?app_nil_r.
Qed.

(** C2: the code does not keep the ownership rule.  A two-sided congruence
    on five generators gets the parent at address 1 attached while it has no
    pairs, so its quotient is that parent; [add_pair([0], [1])] then passes
    the parent's address to [delete], although the parent pointer still
    refers to it.  This holds in debug and in release builds. *)
Theorem add_pair_deletes_aliased_quotient (debug : bool) :
  let w0 := Example.after (set_parent_semigroup debug (Some 1))
              (Example.after (set_nr_generators Example.impl 5)
                 (Example.fresh TWOSIDED)) in
  let w1 := Example.after (add_pair Example.impl [0] [1]) w0 in
  _parent (this w0) = Some 1
  /\ _quotient (this w0) = _parent (this w0)
  /\ deleted w0 = []
  /\ add_pair Example.impl [0] [1] w0 = (Returns tt, w1)
  /\ deleted w1 = [1]
  /\ _parent (this w1) = Some 1.
Proof.
  destruct debug; vm_compute; repeat split; reflexivity.
Qed.

(** A cached quotient is returned as it is; only the cheap test for an
    infinite quotient is made. *)
Lemma quotient_semigroup_hit {St} (impl : Impl St) (x : World St) s1 a :
  type (this x) = TWOSIDED ->
  is_quotient_obviously_infinite impl (sub x) = (Returns false, s1) ->
  _quotient (this x) = Some a ->
  quotient_semigroup impl x
  = (Returns (Some a),
     {| this := this x; sub := s1; heap := heap x; deleted := deleted x;
        calls := calls x ++ [call_is_quotient_obviously_infinite] |}).
Proof.
  intros Ht Hinf Hq.
  unfold quotient_semigroup, bind, get, virtual, throw, ret; simpl.
  rewrite bool_decide_eq_false_2 by (rewrite Ht; tauto).
  rewrite Hinf; simpl. rewrite Hq; simpl. by rewrite Hq.
Qed.

(** C6.  Attaching the parent at address [a] to an object with no
    generating pairs makes the quotient pointer equal to the parent pointer
    (on a repeated attachment of the same parent it is so already).  For a
    two-sided congruence that is not obviously infinite the next
    [quotient_semigroup] returns that very pointer and builds nothing, and
    the destructor, before or after that call, deletes nothing.  In a debug
    build the assertions of [set_parent_semigroup] are assumed to hold; the
    last of them calls the new parent, which is assumed not to be a deleted
    object. *)
Theorem attached_parent_is_quotient {St} (impl : Impl St) (debug : bool)
    (w : World St) (a : address) :
  _gen_pairs (this w) = [] ->
  (_parent (this w) = Some a -> _quotient (this w) = Some a) ->
  (debug = true -> _parent (this w) <> Some a ->
   (_parent (this w) = nullptr \/ dead (sub w).1 = true)
   /\ (FroidurePinBase.nr_generators (heap w a) = nr_generators (this w)
       \/ nr_generators (this w) = UNDEFINED \/ dead (sub w).1 = true)
   /\ (a ∉ deleted w)) ->
  let w1 := (set_parent_semigroup debug (Some a) w).2 in
  (set_parent_semigroup debug (Some a) w).1 = Returns tt
  /\ _parent (this w1) = Some a
  /\ _quotient (this w1) = _parent (this w1)
  /\ deleted w1 = deleted w
  /\ destroy w1 = (Returns tt, w1)
  /\ (type (this w) = TWOSIDED ->
      forall s1,
        is_quotient_obviously_infinite impl (sub w) = (Returns false, s1) ->
        let w2 := {| this := this w1; sub := s1; heap := heap w1;
                     deleted := deleted w1;
                     calls := calls w1 ++ [call_is_quotient_obviously_infinite] |} in
        quotient_semigroup impl w1 = (Returns (_parent (this w1)), w2)
        /\ destroy w2 = (Returns tt, w2)
        /\ deleted w2 = deleted w).
Proof.
  intros Hpairs Hsame Hassert w1.
  assert (Hrun : (set_parent_semigroup debug (Some a) w).1 = Returns tt
                 /\ this w1 = with_quotient (Some a) (with_parent (Some a) (this w))
                 /\ sub w1 = sub w /\ deleted w1 = deleted w).
  { unfold w1, set_parent_semigroup, LIBSEMIGROUPS_ASSERT.
    destruct (decide (_parent (this w) = Some a)) as [Hp|Hp].
    - specialize (Hsame Hp).
      assert (Hthis : this w = with_quotient (Some a) (with_parent (Some a) (this w)))
        by (destruct (this w); simpl in *; by subst).
      destruct debug;
        unfold bind, get, get_runner, ret; simpl;
        rewrite (bool_decide_eq_true_2 (Some a = _parent (this w))) by done;
        simpl; by rewrite <- Hthis.
    - destruct debug.
      + destruct (Hassert eq_refl Hp) as (H2 & H3 & Hlive).
        unfold bind, get, get_runner, ret, deref, modify; simpl.
        rewrite (bool_decide_eq_false_2 (Some a = _parent (this w))) by done.
        simpl.
        assert (E2 : bool_decide (_parent (this w) = nullptr) || dead (sub w).1 = true).
        { destruct H2 as [H2|H2]; [by rewrite bool_decide_eq_true_2|].
          rewrite H2. apply orb_true_r. }
        rewrite E2; simpl. rewrite (bool_decide_eq_false_2 _ Hlive); simpl.
        assert (E3 : bool_decide (FroidurePinBase.nr_generators (heap w a)
                                  = nr_generators (this w))
                     || bool_decide (nr_generators (this w) = UNDEFINED)
                     || dead (sub w).1 = true).
        { destruct H3 as [H3|[H3|H3]].
          - by rewrite (bool_decide_eq_true_2 _ H3).
          - rewrite (bool_decide_eq_true_2 _ H3). by rewrite orb_true_r.
          - rewrite H3. apply orb_true_r. }
        rewrite E3; simpl. rewrite Hpairs; simpl. done.
      + unfold bind, get, ret, modify; simpl.
        rewrite (bool_decide_eq_false_2 (Some a = _parent (this w))) by done.
        simpl. rewrite Hpairs; simpl. done. }
  destruct Hrun as (Hout & Hthis & Hsub & Hdel).
  assert (Hpar : _parent (this w1) = Some a) by (by rewrite Hthis).
  assert (Hquo : _quotient (this w1) = Some a) by (by rewrite Hthis).
  split; [exact Hout|]. split; [exact Hpar|].
  split; [by rewrite Hpar, Hquo|]. split; [exact Hdel|].
  split; [apply destroy_spares_alias; by rewrite Hpar, Hquo|].
  intros Ht s1 Hinf w2.
  split; [|split].
  - rewrite Hpar.
    apply quotient_semigroup_hit.
    + rewrite Hthis. by destruct (this w).
    + by rewrite Hsub.
    + exact Hquo.
  - apply destroy_spares_alias. simpl. by rewrite Hpar, Hquo.
  - simpl. exact Hdel.
Qed.

Lemma attached_parent_is_quotient_witness :
  let w := Example.after (set_nr_generators Example.impl 5) (Example.fresh TWOSIDED) in
  let w1 := (set_parent_semigroup true (@Some address 1) w).2 in
  _gen_pairs (this w) = []
  /\ _parent (this w) = nullptr
  /\ FroidurePinBase.nr_generators (heap w 1) = nr_generators (this w)
  /\ (1 ∉ deleted w)
  /\ type (this w) = TWOSIDED
  /\ is_quotient_obviously_infinite Example.impl (sub w) = (Returns false, sub w)
  /\ _quotient (this w1) = _parent (this w1)
  /\ (quotient_semigroup Example.impl w1).1 = Returns (Some 1)
  /\ destroy (quotient_semigroup Example.impl w1).2
     = (Returns tt, (quotient_semigroup Example.impl w1).2).
Proof.
  intros w w1.
  assert (Hpairs : _gen_pairs (this w) = []) by reflexivity.
  assert (Hnone : _parent (this w) = nullptr) by reflexivity.
  assert (Hgens : FroidurePinBase.nr_generators (heap w 1) = nr_generators (this w))
    by reflexivity.
  assert (Ht : type (this w) = TWOSIDED) by reflexivity.
  assert (Hinf : is_quotient_obviously_infinite Example.impl (sub w)
                 = (Returns false, sub w)) by reflexivity.
  assert (Hsame : _parent (this w) = Some 1 -> _quotient (this w) = Some 1)
    by (rewrite Hnone; discriminate).
  assert (Hlive : 1 ∉ deleted w) by (vm_compute; by inversion 1).
  pose proof (attached_parent_is_quotient Example.impl true w 1 Hpairs Hsame
                (fun _ _ => conj (or_introl Hnone) (conj (or_introl Hgens) Hlive)))
    as (_ & Hpar & Halias & _ & _ & Hq).
  destruct (Hq Ht (sub w) Hinf) as (Hret & Hdestroy & _).
  split; [exact Hpairs|]. split; [exact Hnone|]. split; [exact Hgens|].
  split; [exact Hlive|].
  split; [exact Ht|]. split; [exact Hinf|]. split; [exact Halias|].
  unfold w1. rewrite Hret. cbn [fst snd].
  split; [by rewrite Hpar | exact Hdestroy].
Defined.

(** ** What a member function leaves alone *)
Section Frame.
Context {St : Type} (impl : Impl St) (debug : bool).
Context (R : relation CongBase) `{!PreOrder R}.

Lemma keeps_ret {A} (a : A) : keeps (St:=St) R (ret a).
Proof. intros w. reflexivity. Qed.

Lemma keeps_throw {A} (e : exception) : keeps R (@throw St A e).
Proof. intros w. reflexivity. Qed.

Lemma keeps_undefined {A} : keeps R (@undefined St A).
Proof. intros w. reflexivity. Qed.

Lemma keeps_get : keeps R (@get St).
Proof. intros w. reflexivity. Qed.

Lemma keeps_get_runner : keeps R (@get_runner St).
Proof. intros w. reflexivity. Qed.

Lemma keeps_const {A} (f : CongBase -> outcome A) : keeps R (@const St A f).
Proof. intros w. reflexivity. Qed.

Lemma keeps_log (c : call) : keeps R (@log St c).
Proof. intros w. reflexivity. Qed.

Lemma keeps_virtual {A} (c : call) f : keeps R (@virtual St A c f).
Proof. intros w. reflexivity. Qed.

Lemma keeps_delete (p : pointer) : keeps R (@delete St p).
Proof. intros w. destruct p; reflexivity. Qed.

Lemma keeps_deref {A} (p : pointer) (f : FroidurePinBase.t -> A) :
  keeps R (@deref St A p f).
Proof.
  intros w. unfold deref. destruct p; [case_bool_decide|]; reflexivity.
Qed.

Lemma keeps_logged (p : pointer) (c : address -> call) : keeps R (@logged St p c).
Proof. intros w. destruct p; reflexivity. Qed.

Lemma keeps_modify_runner (f : Runner -> Runner) : keeps R (@modify_runner St f).
Proof. intros w. reflexivity. Qed.

Lemma keeps_modify (f : CongBase -> CongBase) :
  (forall c, R c (f c)) -> keeps R (@modify St f).
Proof. intros H w. apply H. Qed.

Lemma keeps_bind {A B} (m : World St -> outcome A * World St)
    (k : A -> World St -> outcome B * World St) :
  keeps R m -> (forall a, keeps R (k a)) -> keeps R (bind m k).
Proof.
  intros Hm Hk w. unfold bind. specialize (Hm w).
  destruct (m w) as [[a|e| |] w']; simpl in *; try assumption.
  etransitivity; [exact Hm | apply Hk].
Qed.

Lemma keeps_assert (c : World St -> outcome bool * World St) :
  keeps R c -> keeps R (LIBSEMIGROUPS_ASSERT debug c).
Proof.
  intros Hc. unfold LIBSEMIGROUPS_ASSERT. destruct debug; [|apply keeps_ret].
  apply keeps_bind; [exact Hc|]. intros [|]; [apply keeps_ret|].
  intros w. reflexivity.
Qed.

End Frame.

(** One step of a proof that a member function keeps a relation. *)
Ltac keeps_step :=
  first
    [ apply keeps_bind; [apply _ | | intros ?]
    | apply keeps_assert; [apply _ | ]
    | solve [ apply keeps_ret; apply _ | apply keeps_throw; apply _
            | apply keeps_undefined; apply _ | apply keeps_get; apply _
            | apply keeps_get_runner; apply _ | apply keeps_const; apply _
            | apply keeps_log; apply _ | apply keeps_virtual; apply _
            | apply keeps_delete; apply _ | apply keeps_deref; apply _
            | apply keeps_logged; apply _ | apply keeps_modify_runner; apply _
            | assumption ]
    | match goal with
      | |- keeps _ (if ?b then _ else _) => destruct b
      | |- keeps _ (match ?x with _ => _ end) => destruct x
      end ].

#[global] Instance same_classes_preorder : PreOrder same_classes.
Proof.
  split.
  - by intros c.
  - intros c1 c2 c3 [H1 H2] [H3 H4]. split; congruence.
Qed.

#[global] Instance same_flag_preorder : PreOrder same_flag.
Proof.
  split.
  - by intros c.
  - intros c1 c2 c3 H1 H2. unfold same_flag in *. congruence.
Qed.

(** ** The cache of the non-trivial classes *)

Lemma scan_keeps_flag {St} (impl : Impl St) (debug : bool) (p : pointer)
    (remaining : nat) (pos : N) :
  keeps same_flag (scan impl debug p remaining pos).
Proof.
  revert pos. induction remaining as [|r IH]; intros pos; simpl.
  - keeps_step.
  - repeat keeps_step; try apply IH.
    apply keeps_modify. by intros c.
Qed.

(** A computation that has run is not run again. *)
Lemma init_non_trivial_classes_done {St} (impl : Impl St) (debug : bool)
    (w : World St) :
  _init_ntc_done (this w) = true ->
  init_non_trivial_classes impl debug w = (Returns tt, w).
Proof.
  intros H. unfold init_non_trivial_classes, bind, get. simpl. by rewrite H.
Qed.

(** A computation that returns leaves the flag set. *)
Lemma init_non_trivial_classes_sets_flag {St} (impl : Impl St) (debug : bool)
    (w w1 : World St) :
  init_non_trivial_classes impl debug w = (Returns tt, w1) ->
  _init_ntc_done (this w1) = true.
Proof.
  destruct (_init_ntc_done (this w)) eqn:Hdone.
  - rewrite init_non_trivial_classes_done by done. by intros [= <-].
  - unfold init_non_trivial_classes. unfold bind at 1, get. simpl.
    rewrite Hdone. case_bool_decide as Hp; [done|].
    unfold bind at 1.
    destruct (LIBSEMIGROUPS_ASSERT _ _ w) as [[[]| | |] wa]; try done.
    unfold bind at 1, modify. simpl.
    match goal with
    | |- ?rest ?x = _ -> _ =>
        assert (Hk : keeps same_flag rest)
    end.
    { repeat keeps_step; try apply scan_keeps_flag; by intros ?. }
    intros Hrun. specialize (Hk {| this := with_init_ntc_done true (this wa);
                                   sub := sub wa; heap := heap wa;
                                   deleted := deleted wa; calls := calls wa |}).
    rewrite Hrun in Hk. exact Hk.
Qed.

(** The member functions other than the three that read the classes do not
    touch the cache. *)
Lemma perform_keeps_classes {St} (impl : Impl St) (debug : bool)
    (o : operation) (w : World St) :
  _init_ntc_done (this w) = true ->
  same_classes (this w) (this (perform impl debug o w)).
Proof.
  intros Hdone.
  assert (Hntc : forall A (f : CongBase -> A),
            same_classes (this w)
              (this (bind (init_non_trivial_classes impl debug)
                          (fun _ => bind get (fun c => ret (f c))) w).2)).
  { intros A f. unfold bind at 1.
    rewrite init_non_trivial_classes_done by done. reflexivity. }
  destruct o; simpl;
    try apply Hntc;
    match goal with
    | |- same_classes _ (this (?m w).2) =>
        assert (Hk : keeps same_classes m); [|exact (Hk w)]
    end.
  - unfold set_nr_generators. repeat keeps_step.
    apply keeps_modify. by intros c.
  - unfold add_pair. repeat keeps_step; apply keeps_modify; by intros c.
  - unfold contains. repeat keeps_step.
  - unfold less. repeat keeps_step.
  - unfold quotient_semigroup. repeat keeps_step.
    apply keeps_modify. by intros c.
  - unfold set_parent_semigroup.
    repeat keeps_step; apply keeps_modify; by intros c.
Qed.

Lemma perform_all_keeps_classes {St} (impl : Impl St) (debug : bool)
    (ops : list operation) (w : World St) :
  _init_ntc_done (this w) = true ->
  same_classes (this w) (this (perform_all impl debug ops w)).
Proof.
  revert w. induction ops as [|o ops IH]; intros w Hdone; simpl.
  - reflexivity.
  - pose proof (perform_keeps_classes impl debug o w Hdone) as Ho.
    etransitivity; [exact Ho|]. apply IH.
    destruct Ho as [Hflag _]. by rewrite Hflag.
Qed.

(** C8.  Once [init_non_trivial_classes] has returned, then after any
    further member function calls, returning or throwing, [cbegin_ntc],
    [cend_ntc] and [nr_non_trivial_classes] give the grouping computed
    then and leave the world as it is: the parent is not scanned again and
    no word is classified. *)
Theorem non_trivial_classes_computed_once {St} (impl : Impl St) (debug : bool)
    (w w1 : World St) (ops : list operation) :
  init_non_trivial_classes impl debug w = (Returns tt, w1) ->
  let classes := _non_trivial_classes (this w1) in
  let w2 := perform_all impl debug ops w1 in
  _non_trivial_classes (this w2) = classes
  /\ init_non_trivial_classes impl debug w2 = (Returns tt, w2)
  /\ cbegin_ntc impl debug w2 = (Returns (classes, O), w2)
  /\ cend_ntc impl debug w2 = (Returns (classes, length classes), w2)
  /\ nr_non_trivial_classes impl debug w2
     = (Returns (N.of_nat (length classes)), w2).
Proof.
  intros Hinit classes w2.
  pose proof (init_non_trivial_classes_sets_flag impl debug w w1 Hinit) as Hflag.
  destruct (perform_all_keeps_classes impl debug ops w1 Hflag) as [Hflag2 Hsame].
  fold w2 in Hflag2, Hsame. rewrite Hflag in Hflag2.
  pose proof (init_non_trivial_classes_done impl debug w2 Hflag2) as Hdone.
  split; [exact Hsame|]. split; [exact Hdone|].
  unfold cbegin_ntc, cend_ntc, nr_non_trivial_classes.
  unfold bind at 1 3 5. rewrite Hdone.
  unfold bind, get, ret. simpl. by rewrite Hsame.
Qed.

Lemma non_trivial_classes_computed_once_witness :
  let w := Example.after (set_parent_semigroup false (@Some address 1))
             (Example.after (set_nr_generators Example.impl 5)
                (Example.fresh TWOSIDED)) in
  let w1 := Example.after (init_non_trivial_classes Example.impl false) w in
  let w2 := perform_all Example.impl false
              [do_add_pair [0] [2]; do_quotient_semigroup; do_contains [2] [3]] w1 in
  init_non_trivial_classes Example.impl false w = (Returns tt, w1)
  /\ nr_generating_pairs (this w2) = 1
  /\ cbegin_ntc Example.impl false w2 = (Returns ([[[0]; [1]]; [[3]; [4]]], O), w2)
  /\ nr_non_trivial_classes Example.impl false w2 = (Returns 2, w2).
Proof.
  intros w w1 w2.
  assert (Hinit : init_non_trivial_classes Example.impl false w = (Returns tt, w1))
    by (vm_compute; reflexivity).
  pose proof (non_trivial_classes_computed_once Example.impl false w w1
                [do_add_pair [0] [2]; do_quotient_semigroup; do_contains [2] [3]]
                Hinit) as (_ & _ & Hbegin & _ & Hcount).
  split; [exact Hinit|]. split; [vm_compute; reflexivity|].
  split; [exact Hbegin | exact Hcount].
Defined.

(** ** The scan of the parent *)

Lemma length_positions (n : N) : length (positions n) = N.to_nat n.
Proof. unfold positions. by rewrite length_fmap, length_seq. Qed.

Lemma lookup_positions (n : N) (i : nat) :
  (i < N.to_nat n)%nat -> positions n !! i = Some (N.of_nat i).
Proof.
  intros Hi. unfold positions.
  by rewrite list_lookup_fmap, lookup_seq_lt.
Qed.

Lemma elem_of_positions (n c : N) : c ∈ positions n <-> c < n.
Proof.
  unfold positions. rewrite list_elem_of_fmap. split.
  - intros (i & -> & Hi). apply elem_of_seq in Hi. lia.
  - intros Hc. exists (N.to_nat c). rewrite elem_of_seq. split; lia.
Qed.

Lemma bucket_snoc (cls : word_type -> class_index_type) (ws : list word_type)
    (x : word_type) (c : class_index_type) :
  bucket cls (ws ++ [x]) c
  = if decide (cls x = c) then bucket cls ws c ++ [x] else bucket cls ws c.
Proof.
  unfold bucket. rewrite filter_app.
  destruct (decide (cls x = c)) as [H|H].
  - by rewrite filter_cons_True.
  - rewrite filter_cons_False by done. by rewrite filter_nil, app_nil_r.
Qed.

(** Pushing a word on the bucket of its class keeps the buckets those of the
    words seen so far. *)
Lemma push_back_at_bucket (cls : word_type -> class_index_type)
    (ws : list word_type) (x : word_type) (n : N) :
  cls x < n ->
  push_back_at (cls x) x (bucket cls ws <$> positions n)
  = Some (bucket cls (ws ++ [x]) <$> positions n).
Proof.
  intros Hlt. unfold push_back_at.
  rewrite length_fmap, length_positions.
  rewrite decide_True by lia. f_equal.
  apply list_eq. intros i.
  rewrite list_lookup_alter, !list_lookup_fmap.
  destruct (decide (i < N.to_nat n)%nat) as [Hi|Hi].
  - destruct (decide (N.to_nat (cls x) = i)) as [<-|Hne].
    + rewrite lookup_positions by done. simpl. rewrite bucket_snoc.
      rewrite N2Nat.id. by rewrite decide_True.
    + rewrite lookup_positions by done. simpl. rewrite bucket_snoc.
      by rewrite decide_False by lia.
  - destruct (decide (N.to_nat (cls x) = i)) as [<-|Hne]; [lia|].
    by rewrite lookup_ge_None_2 by (rewrite length_positions; lia).
Qed.

Lemma scan_succ {St} (impl : Impl St) (debug : bool) (p : pointer)
    (r : nat) (pos : N) (w : World St) :
  scan impl debug p (Datatypes.S r) pos w
  = bind (logged p (fun a => call_factorisation a pos))
      (fun _ =>
       bind (deref p (fun o => FroidurePinBase.factorisation o pos))
         (fun x =>
          bind (virtual (call_word_to_class_index x) (word_to_class_index impl x))
            (fun i =>
             bind get
               (fun c =>
                bind (match push_back_at i x (_non_trivial_classes c) with
                      | None => undefined
                      | Some v => modify (with_non_trivial_classes v)
                      end)
                  (fun _ =>
                   bind (LIBSEMIGROUPS_ASSERT debug
                           (bind (virtual (call_word_to_class_index x)
                                          (word_to_class_index impl x))
                              (fun j =>
                               bind get
                                 (fun c =>
                                  ret (j <? N.of_nat
                                              (length (_non_trivial_classes c)))))))
                     (fun _ => scan impl debug p r (pos + 1))))))) w.
Proof. reflexivity. Qed.

(** The loop, from position [k] for [remaining] iterations, through a
    parent that is alive and over a classification that answers [cls] in
    every state that [stable] holds of: it returns, and the buckets are
    those of the words seen before followed by the words at the positions
    scanned. *)
Lemma scan_buckets {St} (impl : Impl St) (debug : bool)
    (stable : Runner * St -> Prop) (cls : word_type -> class_index_type)
    (n : N) (a : address) :
  (forall s x, stable s ->
     (word_to_class_index impl x s).1 = Returns (cls x)
     /\ stable (word_to_class_index impl x s).2) ->
  forall (remaining k : nat) (w : World St) (ws : list word_type),
    stable (sub w) ->
    a ∉ deleted w ->
    _non_trivial_classes (this w) = bucket cls ws <$> positions n ->
    (forall pos, pos ∈ (N.of_nat <$> seq k remaining) ->
       cls (FroidurePinBase.factorisation (heap w a) pos) < n) ->
    exists w',
      scan impl debug (Some a) remaining (N.of_nat k) w = (Returns tt, w')
      /\ this w'
         = with_non_trivial_classes
             (bucket cls
                (ws ++ (FroidurePinBase.factorisation (heap w a)
                          <$> (N.of_nat <$> seq k remaining)))
                <$> positions n)
             (this w)
      /\ stable (sub w')
      /\ heap w' = heap w
      /\ deleted w' = deleted w
      /\ calls w'
         = calls w ++ scan_calls debug a (heap w a) (N.of_nat <$> seq k remaining).
Proof.
  intros Hcls. induction remaining as [|r IH]; intros k w ws Hst Hlive Hntc Hlt.
  - exists w. simpl. rewrite !app_nil_r. rewrite <- Hntc.
    split; [done|]. split; [by destruct (this w)|]. done.
  - set (x := FroidurePinBase.factorisation (heap w a) (N.of_nat k)).
    assert (Hx : cls x < n) by (apply Hlt; simpl; left).
    destruct (Hcls (sub w) x Hst) as [Hout Hst1].
    destruct (word_to_class_index impl x (sub w)) as [o s1] eqn:E1.
    simpl in Hout, Hst1. subst o.
    destruct (Hcls s1 x Hst1) as [Hout2 Hst2].
    destruct (word_to_class_index impl x s1) as [o s2] eqn:E2.
    simpl in Hout2, Hst2. subst o.
    set (s' := if debug then s2 else s1).
    set (w1 := {| this := with_non_trivial_classes
                            (bucket cls (ws ++ [x]) <$> positions n) (this w);
                  sub := s'; heap := heap w; deleted := deleted w;
                  calls := calls w ++ scan_calls debug a (heap w a) [N.of_nat k] |}).
    assert (Hstep : scan impl debug (Some a) (Datatypes.S r) (N.of_nat k) w
                    = scan impl debug (Some a) r (N.of_nat (Datatypes.S k)) w1).
    { rewrite scan_succ.
      unfold bind at 1, logged, log. cbn [fst snd].
      unfold bind at 1, deref. cbn [heap deleted].
      rewrite (bool_decide_eq_false_2 _ Hlive). fold x.
      unfold bind at 1, virtual. cbn [sub]. rewrite E1. cbn [fst snd].
      unfold bind at 1, get. cbn [this].
      rewrite Hntc, (push_back_at_bucket cls ws x n Hx).
      unfold bind at 1, modify. cbn [this sub heap deleted calls].
      replace (N.of_nat k + 1) with (N.of_nat (Datatypes.S k)) by lia.
      unfold w1, s', scan_calls, LIBSEMIGROUPS_ASSERT.
      destruct debug.
      - unfold bind at 1 2 3, virtual. cbn [sub]. rewrite E2. cbn [fst snd].
        unfold bind, get, ret.
        cbn [this heap deleted calls with_non_trivial_classes _non_trivial_classes].
        rewrite length_fmap, length_positions, N2Nat.id.
        rewrite (proj2 (N.ltb_lt _ _) Hx).
        f_equal. f_equal. simpl. fold x. by rewrite <- !app_assoc.
      - unfold bind at 1, ret.
        f_equal. f_equal. simpl. fold x. by rewrite <- !app_assoc. }
    destruct (IH (Datatypes.S k) w1 (ws ++ [x])) as (w' & Hrun & Hthis & Hs & Hh & Hd & Hc).
    + unfold w1, s'. simpl. by destruct debug.
    + exact Hlive.
    + done.
    + intros pos Hpos. apply Hlt. simpl. by right.
    + exists w'. rewrite Hstep, Hrun. split; [done|].
      split.
      { rewrite Hthis. simpl. fold x. rewrite <- app_assoc. reflexivity. }
      split; [exact Hs|]. split; [exact Hh|]. split; [exact Hd|].
      rewrite Hc. simpl. unfold scan_calls. simpl. fold x.
      rewrite app_nil_r, <- app_assoc. reflexivity.
Qed.

Lemma buckets_of_nothing (cls : word_type -> class_index_type) (n : N) :
  bucket cls [] <$> positions n = replicate (N.to_nat n) [].
Proof.
  unfold positions. generalize (N.to_nat n) O. intros m.
  induction m as [|m IH]; intros k; simpl; [done|]. by rewrite IH.
Qed.

Lemma elem_of_non_trivial_classes_spec (cls : word_type -> class_index_type)
    (n : N) (ws klass : list word_type) :
  klass ∈ non_trivial_classes_spec cls n ws
  <-> exists c, c < n /\ klass = bucket cls ws c /\ (2 <= length klass)%nat.
Proof.
  unfold non_trivial_classes_spec.
  rewrite list_elem_of_filter, list_elem_of_fmap. split.
  - intros (Hlen & c & -> & Hc). exists c. by rewrite <- elem_of_positions.
  - intros (c & Hc & -> & Hlen). split; [done|]. exists c.
    by rewrite elem_of_positions.
Qed.

(** C7.  The first request, on an object with a parent at address [a] that
    was not deleted, a finite class count [n] that a vector can hold, and a
    classification that answers [cls] with indices below [n]:
    [init_non_trivial_classes] returns after one exhaustive scan, which for each position in [0, size()) in turn asks
    the parent for the factorisation and classifies the word.  The groups
    it leaves are the buckets, by class index, of the factorised words,
    each in the order of the positions, that hold at least two words. *)
Theorem init_non_trivial_classes_scan {St} (impl : Impl St) (debug : bool)
    (stable : Runner * St -> Prop) (cls : word_type -> class_index_type)
    (n : N) (a : address) (w : World St) :
  _init_ntc_done (this w) = false ->
  _parent (this w) = Some a ->
  a ∉ deleted w ->
  n <> POSITIVE_INFINITY ->
  n <= vector_max_size ->
  stable (sub w) ->
  (forall s, stable s ->
     (nr_classes impl s).1 = Returns n /\ stable (nr_classes impl s).2) ->
  (forall s x, stable s ->
     (word_to_class_index impl x s).1 = Returns (cls x)
     /\ stable (word_to_class_index impl x s).2) ->
  (forall pos, pos < FroidurePinBase.size (heap w a) ->
     cls (FroidurePinBase.factorisation (heap w a) pos) < n) ->
  exists w',
    init_non_trivial_classes impl debug w = (Returns tt, w')
    /\ _non_trivial_classes (this w')
       = non_trivial_classes_spec cls n (factorised (heap w a))
    /\ (forall klass,
          klass ∈ _non_trivial_classes (this w')
          <-> exists c, c < n
                /\ klass = bucket cls (factorised (heap w a)) c
                /\ (2 <= length klass)%nat)
    /\ _init_ntc_done (this w') = true
    /\ deleted w' = deleted w
    /\ calls w'
       = calls w ++ (if debug then [call_nr_classes] else [])
         ++ [call_nr_classes]
         ++ scan_calls debug a (heap w a)
              (positions (FroidurePinBase.size (heap w a))).
Proof.
  intros Hdone Hp Hlive Hfin Hmax Hst Hnr Hcls Hlt.
  destruct (Hnr (sub w) Hst) as [Hn1 Hst1].
  destruct (nr_classes impl (sub w)) as [o s1] eqn:E1.
  simpl in Hn1, Hst1. subst o.
  destruct (Hnr s1 Hst1) as [Hn2 Hst2].
  destruct (nr_classes impl s1) as [o s2] eqn:E2.
  simpl in Hn2, Hst2. subst o.
  set (s' := if debug then s2 else s1).
  set (w1 := {| this := with_non_trivial_classes (replicate (N.to_nat n) [])
                          (with_init_ntc_done true (this w));
                sub := s'; heap := heap w; deleted := deleted w;
                calls := calls w ++ (if debug then [call_nr_classes] else [])
                         ++ [call_nr_classes] |}).
  destruct (scan_buckets impl debug stable cls n a Hcls
              (N.to_nat (FroidurePinBase.size (heap w a))) O w1 [])
    as (w2 & Hscan & Hthis & Hs & Hh & Hd & Hc).
  { unfold w1, s'. simpl. by destruct debug. }
  { exact Hlive. }
  { simpl. by rewrite buckets_of_nothing. }
  { intros pos Hpos. apply Hlt. by apply elem_of_positions. }
  assert (Hrun : init_non_trivial_classes impl debug w
                 = (Returns tt,
                    {| this := with_non_trivial_classes
                                 (filter (fun klass : list word_type =>
                                            ~ (length klass <= 1)%nat)
                                         (_non_trivial_classes (this w2)))
                                 (this w2);
                       sub := sub w2; heap := heap w2; deleted := deleted w2;
                       calls := calls w2 |})).
  { unfold init_non_trivial_classes. unfold bind at 1, get. cbn [fst snd].
    rewrite Hdone, Hp. rewrite bool_decide_eq_false_2 by done.
    assert (Hinit : forall k : unit -> World St -> outcome unit * World St,
              bind (LIBSEMIGROUPS_ASSERT debug
                      (bind (virtual call_nr_classes (nr_classes impl))
                         (fun m => ret (bool_decide (m <> POSITIVE_INFINITY)))))
                (fun _ =>
                 bind (modify (with_init_ntc_done true))
                   (fun _ =>
                    bind (virtual call_nr_classes (nr_classes impl))
                      (fun m =>
                       bind (if m <=? vector_max_size
                             then modify (with_non_trivial_classes
                                            (replicate (N.to_nat m) []))
                             else throw length_error)
                         k))) w
              = k tt w1).
    { intros k. unfold w1, s', LIBSEMIGROUPS_ASSERT.
      pose proof (proj2 (N.leb_le n vector_max_size) Hmax) as Hle.
      destruct debug.
      - unfold bind at 1 2 3, virtual. cbn [sub]. rewrite E1. cbn [fst snd].
        unfold ret at 1. rewrite bool_decide_eq_true_2 by done.
        unfold ret at 1. unfold bind at 1, modify. cbn [fst snd].
        unfold bind at 1. cbn [sub]. rewrite E2. cbn [fst snd].
        rewrite Hle.
        unfold bind at 1. cbn [this heap deleted calls sub].
        by rewrite <- app_assoc.
      - unfold bind at 1, ret at 1. unfold bind at 1, modify. cbn [fst snd].
        unfold bind at 1, virtual. cbn [sub]. rewrite E1. cbn [fst snd].
        rewrite Hle.
        unfold bind at 1. cbn [this heap deleted calls sub].
        reflexivity. }
    rewrite Hinit. unfold bind at 1, deref. cbn [heap deleted w1].
    rewrite (bool_decide_eq_false_2 _ Hlive).
    change (N.of_nat 0) with 0 in Hscan.
    unfold bind at 1. rewrite Hscan. reflexivity. }
  eexists. split; [exact Hrun|].
  assert (Hgroups : filter (fun klass : list word_type => ~ (length klass <= 1)%nat)
                      (_non_trivial_classes (this w2))
                    = non_trivial_classes_spec cls n (factorised (heap w a))).
  { rewrite Hthis. simpl. unfold non_trivial_classes_spec, factorised, positions.
    apply list_filter_iff. intros klass. lia. }
  cbn [this heap deleted calls with_non_trivial_classes _non_trivial_classes
       _init_ntc_done].
  split; [exact Hgroups|].
  split; [intros klass; rewrite Hgroups; apply elem_of_non_trivial_classes_spec|].
  split; [by rewrite Hthis|].
  split; [exact Hd|].
  rewrite Hc. simpl. by rewrite <- !app_assoc.
Qed.

Lemma init_non_trivial_classes_scan_witness :
  let w := Example.after (set_parent_semigroup true (@Some address 1))
             (Example.after (set_nr_generators Example.impl 5)
                (Example.fresh TWOSIDED)) in
  _init_ntc_done (this w) = false
  /\ _parent (this w) = Some 1
  /\ (1 ∉ deleted w)
  /\ 3 <> POSITIVE_INFINITY
  /\ 3 <= vector_max_size
  /\ exists w',
       init_non_trivial_classes Example.impl true w = (Returns tt, w')
       /\ _non_trivial_classes (this w') = [[[0]; [1]]; [[3]; [4]]].
Proof.
  intros w.
  assert (Hdone : _init_ntc_done (this w) = false) by reflexivity.
  assert (Hp : _parent (this w) = Some 1) by reflexivity.
  assert (Hlive : 1 ∉ deleted w) by (vm_compute; by inversion 1).
  assert (Hfin : 3 <> POSITIVE_INFINITY) by discriminate.
  assert (Hmax : 3 <= vector_max_size) by (vm_compute; discriminate).
  assert (Hnr : forall s : Runner * nat, True ->
            (nr_classes Example.impl s).1 = Returns 3 /\ True)
    by (intros s _; split; [reflexivity | exact I]).
  assert (Hcls : forall (s : Runner * nat) x, True ->
            (word_to_class_index Example.impl x s).1 = Returns (Example.class_of x)
            /\ True)
    by (intros s x _; split; [reflexivity | exact I]).
  assert (Hlt : forall pos, pos < FroidurePinBase.size (heap w 1) ->
            Example.class_of (FroidurePinBase.factorisation (heap w 1) pos) < 3).
  { intros pos _. simpl. unfold Example.class_of. repeat case_match; lia. }
  destruct (init_non_trivial_classes_scan Example.impl true (fun _ => True)
              Example.class_of 3 1 w Hdone Hp Hlive Hfin Hmax I Hnr Hcls Hlt)
    as (w' & Hrun & Hspec & _).
  split; [exact Hdone|]. split; [exact Hp|]. split; [exact Hlive|].
  split; [exact Hfin|]. split; [exact Hmax|].
  exists w'. split; [exact Hrun|]. rewrite Hspec. reflexivity.
Defined.

(** * More of the member functions *)

(** ** Validation *)

Lemma validate_word_outcome (c : CongBase) (w : word_type) :
  validate_word c w = Returns tt \/ exists e, validate_word c w = Throws e.
Proof. apply validate_letters_outcome. Qed.

Lemma validate_letters_same_count (c c' : CongBase) (w rest : word_type) :
  _nrgens c' = _nrgens c -> validate_letters c' w rest = validate_letters c w rest.
Proof.
  intros H. induction rest as [|l rest' IH]; simpl; [done|].
  unfold validate_letter, nr_generators. by rewrite H, IH.
Qed.

Lemma validate_letters_first_invalid (c : CongBase) (w pre suf : word_type)
    (l : letter_type) :
  nr_generators c <> UNDEFINED ->
  Forall (fun x => x < _nrgens c) pre ->
  _nrgens c <= l ->
  validate_letters c w (pre ++ l :: suf) = Throws (invalid_letter l w (_nrgens c)).
Proof.
  intros Hn Hpre Hl. induction Hpre as [|x pre' Hx _ IH]; simpl.
  - unfold validate_letter. rewrite bool_decide_eq_false_2 by done.
    by rewrite (proj2 (N.ltb_ge _ _) Hl).
  - unfold validate_letter. rewrite bool_decide_eq_false_2 by done.
    by rewrite (proj2 (N.ltb_lt _ _) Hx).
Qed.

(** X1.  With the generator count set, a word validates exactly when each
    of its letters is below the count, and a relation validates exactly
    when both of its words do. *)
Theorem validate_word_iff (c : CongBase) (u v : word_type) :
  nr_generators c <> UNDEFINED ->
  (validate_word c u = Returns tt <-> Forall (fun l => l < nr_generators c) u)
  /\ (validate_relation c u v = Returns tt
      <-> Forall (fun l => l < nr_generators c) u
          /\ Forall (fun l => l < nr_generators c) v).
Proof.
  intros Hn.
  assert (Hw : forall x, validate_word c x = Returns tt
                         <-> Forall (fun l => l < nr_generators c) x)
    by (intros x; by apply validate_letters_ok).
  split; [apply Hw|].
  unfold validate_relation. rewrite <- !Hw.
  destruct (validate_word_outcome c u) as [Hu|[e Hu]]; rewrite Hu.
  - tauto.
  - split; [done | by intros [? _]].
Qed.

Lemma validate_word_iff_witness :
  let c := with_nrgens 3 (CongBase_new LEFT) in
  nr_generators c <> UNDEFINED
  /\ Forall (fun l => l < nr_generators c) [0; 2; 1]
  /\ validate_word c [0; 2; 1] = Returns tt.
Proof.
  intros c.
  assert (Hn : nr_generators c <> UNDEFINED) by discriminate.
  assert (Hall : Forall (fun l => l < nr_generators c) [0; 2; 1])
    by (repeat constructor).
  split; [exact Hn|]. split; [exact Hall|].
  exact (proj2 (proj1 (validate_word_iff c [0; 2; 1] [] Hn)) Hall).
Defined.

(** X2.  With the generator count set, the exception of [validate_word]
    carries the first letter of the word that is not below the count, the
    whole word and the count. *)
Theorem validate_word_first_invalid (c : CongBase) (pre suf : word_type)
    (l : letter_type) :
  nr_generators c <> UNDEFINED ->
  Forall (fun x => x < nr_generators c) pre ->
  nr_generators c <= l ->
  validate_word c (pre ++ l :: suf)
  = Throws (invalid_letter l (pre ++ l :: suf) (nr_generators c)).
Proof.
  intros Hn Hpre Hl. by apply validate_letters_first_invalid.
Qed.

Lemma validate_word_first_invalid_witness :
  let c := with_nrgens 3 (CongBase_new LEFT) in
  nr_generators c <> UNDEFINED
  /\ Forall (fun x => x < nr_generators c) [0; 2]
  /\ nr_generators c <= 7
  /\ validate_word c [0; 2; 7; 9]
     = Throws (invalid_letter 7 [0; 2; 7; 9] 3).
Proof.
  intros c.
  assert (Hn : nr_generators c <> UNDEFINED) by discriminate.
  assert (Hpre : Forall (fun x => x < nr_generators c) [0; 2])
    by (repeat constructor).
  assert (Hl : nr_generators c <= 7) by (vm_compute; discriminate).
  split; [exact Hn|]. split; [exact Hpre|]. split; [exact Hl|].
  exact (validate_word_first_invalid c [0; 2] [9] 7 Hn Hpre Hl).
Defined.

(** ** The generator count *)

(** X3.  [set_nr_generators] on an object whose count is set throws, with
    nothing changed, whatever the new value.  On an object whose count is
    unset it stores the value before it tells the concrete class, so the
    value is stored even when that call throws; and when the value is not
    [UNDEFINED], every later call throws. *)
Theorem set_nr_generators_once {St} (impl : Impl St) (w : World St) (n : N) :
  (nr_generators (this w) <> UNDEFINED ->
   set_nr_generators impl n w = (Throws generators_set_twice, w))
  /\ (nr_generators (this w) = UNDEFINED ->
      let w' := (set_nr_generators impl n w).2 in
      (set_nr_generators impl n w).1 = (set_nr_generators_impl impl n (sub w)).1
      /\ this w' = with_nrgens n (this w)
      /\ calls w' = calls w ++ [call_set_nr_generators_impl n]
      /\ (n <> UNDEFINED ->
          forall m, set_nr_generators impl m w' = (Throws generators_set_twice, w'))).
Proof.
  split.
  - intros Hn. unfold set_nr_generators, bind, get, throw. simpl.
    by rewrite bool_decide_eq_true_2.
  - intros Hn w'.
    assert (Hrun : set_nr_generators impl n w
                   = ((set_nr_generators_impl impl n (sub w)).1,
                      {| this := with_nrgens n (this w);
                         sub := (set_nr_generators_impl impl n (sub w)).2;
                         heap := heap w; deleted := deleted w;
                         calls := calls w ++ [call_set_nr_generators_impl n] |})).
    { unfold set_nr_generators, bind, get, modify, virtual. simpl.
      by rewrite bool_decide_eq_false_2 by (rewrite Hn; tauto). }
    unfold w'. rewrite Hrun. simpl.
    split; [done|]. split; [done|]. split; [done|].
    intros Hne m. unfold set_nr_generators, bind, get, throw. simpl.
    by rewrite bool_decide_eq_true_2.
Qed.

Lemma set_nr_generators_once_witness :
  let w := Example.fresh RIGHT in
  nr_generators (this w) = UNDEFINED
  /\ 4 <> UNDEFINED
  /\ nr_generators (this (set_nr_generators Example.impl 4 w).2) = 4
  /\ (set_nr_generators Example.impl 4 (set_nr_generators Example.impl 4 w).2).1
     = Throws generators_set_twice.
Proof.
  intros w.
  assert (Hn : nr_generators (this w) = UNDEFINED) by reflexivity.
  assert (Hne : 4 <> UNDEFINED) by discriminate.
  destruct (proj2 (set_nr_generators_once Example.impl w 4) Hn)
    as (_ & Hthis & _ & Hagain).
  split; [exact Hn|]. split; [exact Hne|].
  split; [by rewrite Hthis|]. by rewrite (Hagain Hne 4).
Defined.

(** ** Adding pairs *)

(** A pair that the parent, which is alive, already equates is asked about
    and dropped. *)
Lemma add_pair_skips {St} (impl : Impl St) (w : World St) (u v : word_type) :
  validate_word (this w) u = Returns tt ->
  validate_word (this w) v = Returns tt ->
  u <> v ->
  parent_live w ->
  parent_equates w u v = true ->
  add_pair impl u v w
  = (Returns tt,
     {| this := this w; sub := sub w; heap := heap w; deleted := deleted w;
        calls := calls w ++ parent_asked w u v |}).
Proof.
  intros Hu Hv Hne Hlive Heq. unfold add_pair, bind at 1, const. rewrite Hu.
  unfold bind at 1. rewrite Hv. rewrite bool_decide_eq_false_2 by done.
  unfold parent_equates, parent_asked, parent_live in *.
  unfold bind, get, const, parent_semigroup, has_parent_semigroup, logged,
    deref, log, ret; simpl.
  destruct w as [c s h d l]; simpl in *.
  destruct (_parent c) as [a|] eqn:Hp; simpl; rewrite ?Hp; simpl; [|done].
  rewrite (bool_decide_eq_false_2 _ (Hlive a eq_refl)). simpl.
  by rewrite Heq.
Qed.

(** A call through a deleted parent is undefined behaviour; the data
    members and the deleted objects are as before. *)
Lemma add_pair_dead_parent {St} (impl : Impl St) (w : World St)
    (u v : word_type) (a : address) :
  validate_word (this w) u = Returns tt ->
  validate_word (this w) v = Returns tt ->
  u <> v ->
  _parent (this w) = Some a ->
  a ∈ deleted w ->
  add_pair impl u v w
  = (Undefined,
     {| this := this w; sub := sub w; heap := heap w; deleted := deleted w;
        calls := calls w ++ [call_equal_to a u v] |}).
Proof.
  intros Hu Hv Hne Hp Hdead. unfold add_pair, bind at 1, const. rewrite Hu.
  unfold bind at 1. rewrite Hv. rewrite bool_decide_eq_false_2 by done.
  unfold bind, get, const, parent_semigroup, has_parent_semigroup, logged,
    deref, log, ret; simpl.
  destruct w as [c s h d l]; simpl in *.
  destruct (_parent c) as [b|] eqn:Hb; simpl; rewrite ?Hb; simpl; [|done].
  injection Hp as ->. by rewrite (bool_decide_eq_true_2 _ Hdead).
Qed.

Lemma parent_live_dec {St} (w : World St) :
  parent_live w \/ exists a, _parent (this w) = Some a /\ a ∈ deleted w.
Proof.
  unfold parent_live. destruct (_parent (this w)) as [a|]; [|by left].
  destruct (decide (a ∈ deleted w)) as [Hd|Hd].
  - right. by exists a.
  - left. by intros ? [= <-].
Qed.

(** A failing validation of the second word leaves the world as it is. *)
Lemma add_pair_second_word_invalid {St} (impl : Impl St) (w : World St)
    (u v : word_type) (e : exception) :
  validate_word (this w) u = Returns tt ->
  validate_word (this w) v = Throws e ->
  (add_pair impl u v w).2 = w.
Proof.
  intros Hu Hv. unfold add_pair, bind, const. by rewrite Hu, Hv.
Qed.

(** What [add_pair] does to the data members: nothing, or it appends the
    pair and clears the quotient pointer. *)
Lemma add_pair_this {St} (impl : Impl St) (w : World St) (u v : word_type) :
  this (add_pair impl u v w).2 = this w
  \/ (validate_word (this w) u = Returns tt
      /\ validate_word (this w) v = Returns tt
      /\ u <> v
      /\ this (add_pair impl u v w).2
         = with_quotient nullptr
             (with_gen_pairs (_gen_pairs (this w) ++ [(u, v)]) (this w))).
Proof.
  destruct (validate_word_outcome (this w) u) as [Hu|[e Hu]].
  - destruct (validate_word_outcome (this w) v) as [Hv|[e Hv]].
    + destruct (decide (u = v)) as [->|Hne].
      * left. unfold add_pair, bind, const. rewrite Hv.
        by rewrite bool_decide_eq_true_2.
      * destruct (parent_live_dec w) as [Hlive|(a & Hp & Hdead)].
        -- destruct (parent_equates w u v) eqn:Heq.
           ++ left. by rewrite add_pair_skips.
           ++ right. by rewrite add_pair_records.
        -- left. by rewrite (add_pair_dead_parent impl w u v a).
    + left. by rewrite (add_pair_second_word_invalid impl w u v e).
  - left. unfold add_pair, bind, const. by rewrite Hu.
Qed.

(** X4.  [add_pair(u, u)] changes nothing, whatever the word: it returns
    when the word validates and throws what validation throws when it does
    not; no pair is recorded, nothing is deleted and nothing called. *)
Theorem add_pair_same_word {St} (impl : Impl St) (w : World St) (u : word_type) :
  add_pair impl u u w = (validate_word (this w) u, w).
Proof.
  unfold add_pair, bind, const.
  destruct (validate_word_outcome (this w) u) as [Hu|[e Hu]]; rewrite Hu.
  - by rewrite bool_decide_eq_true_2.
  - done.
Qed.

(** X5.  [add_pair] of two different valid words that the attached parent,
    which was not deleted, already equates records nothing: the parent is
    asked once, and the pair list, the quotient, the finished flag and the
    concrete class are as before. *)
Theorem add_pair_known_to_parent {St} (impl : Impl St) (w : World St)
    (u v : word_type) (a : address) :
  validate_word (this w) u = Returns tt ->
  validate_word (this w) v = Returns tt ->
  u <> v ->
  _parent (this w) = Some a ->
  a ∉ deleted w ->
  FroidurePinBase.equal_to (heap w a) u v = true ->
  add_pair impl u v w
  = (Returns tt,
     {| this := this w; sub := sub w; heap := heap w; deleted := deleted w;
        calls := calls w ++ [call_equal_to a u v] |}).
Proof.
  intros Hu Hv Hne Hp Hlive Heq.
  rewrite add_pair_skips; try done.
  - unfold parent_asked. by rewrite Hp.
  - intros b Hb. rewrite Hp in Hb. by injection Hb as <-.
  - unfold parent_equates. by rewrite Hp.
Qed.

Lemma add_pair_known_to_parent_witness :
  let w := Example.after (set_parent_semigroup true (@Some address 2))
             (Example.after (set_nr_generators Example.impl 5)
                (Collapsed.fresh TWOSIDED)) in
  validate_word (this w) [0] = Returns tt
  /\ validate_word (this w) [1; 1] = Returns tt
  /\ [0] <> [1; 1]
  /\ _parent (this w) = Some 2
  /\ (2 ∉ deleted w)
  /\ FroidurePinBase.equal_to (heap w 2) [0] [1; 1] = true
  /\ nr_generating_pairs (this (add_pair Example.impl [0] [1; 1] w).2) = 0
  /\ (add_pair Example.impl [0] [1; 1] w).1 = Returns tt.
Proof.
  intros w.
  assert (Hu : validate_word (this w) [0] = Returns tt) by reflexivity.
  assert (Hv : validate_word (this w) [1; 1] = Returns tt) by reflexivity.
  assert (Hne : [0] <> [1; 1] :> word_type) by discriminate.
  assert (Hp : _parent (this w) = Some 2) by reflexivity.
  assert (Hlive : 2 ∉ deleted w) by (vm_compute; by inversion 1).
  assert (Heq : FroidurePinBase.equal_to (heap w 2) [0] [1; 1] = true)
    by reflexivity.
  split; [exact Hu|]. split; [exact Hv|]. split; [exact Hne|].
  split; [exact Hp|]. split; [exact Hlive|]. split; [exact Heq|].
  rewrite (add_pair_known_to_parent Example.impl w [0] [1; 1] 2
             Hu Hv Hne Hp Hlive Heq).
  split; reflexivity.
Defined.

(** X6.  [add_pair] of two different valid words, on an object whose
    parent, if it has one, was not deleted and does not equate them,
    appends the pair after the pairs recorded before, so the pair count
    goes up by one; it leaves no quotient cached, and hands the concrete
    class a state whose finished flag is reset, returning or throwing as
    [add_pair_impl] does. *)
Theorem add_pair_appends {St} (impl : Impl St) (w : World St) (u v : word_type) :
  validate_word (this w) u = Returns tt ->
  validate_word (this w) v = Returns tt ->
  u <> v ->
  parent_live w ->
  parent_equates w u v = false ->
  let w' := (add_pair impl u v w).2 in
  cbegin_generating_pairs (this w') = cbegin_generating_pairs (this w) ++ [(u, v)]
  /\ nr_generating_pairs (this w') = nr_generating_pairs (this w) + 1
  /\ has_quotient_semigroup (this w') = false
  /\ (add_pair impl u v w).1
     = (add_pair_impl impl u v (set_finished false (sub w).1, (sub w).2)).1
  /\ sub w' = (add_pair_impl impl u v (set_finished false (sub w).1, (sub w).2)).2.
Proof.
  intros Hu Hv Hne Hlive Heq w'. unfold w'. rewrite add_pair_records by done.
  simpl. split; [done|]. split; [|done].
  unfold nr_generating_pairs. simpl. rewrite length_app. simpl. lia.
Qed.

Lemma add_pair_appends_witness :
  let w := Example.after (set_parent_semigroup true (Some 1))
             (Example.after (add_pair Example.impl [0] [1])
                (Example.after (set_nr_generators Example.impl 5)
                   (Example.fresh LEFT))) in
  validate_word (this w) [1; 1] = Returns tt
  /\ validate_word (this w) [] = Returns tt
  /\ [1; 1] <> []
  /\ parent_live w
  /\ has_parent_semigroup (this w) = true
  /\ parent_equates w [1; 1] [] = false
  /\ cbegin_generating_pairs (this (add_pair Example.impl [1; 1] [] w).2)
     = [([0], [1]); ([1; 1], [])].
Proof.
  intros w.
  assert (Hu : validate_word (this w) [1; 1] = Returns tt) by reflexivity.
  assert (Hv : validate_word (this w) [] = Returns tt) by reflexivity.
  assert (Hne : [1; 1] <> [] :> word_type) by discriminate.
  assert (Hlive : parent_live w) by (intros a _; vm_compute; by inversion 1).
  assert (Heq : parent_equates w [1; 1] [] = false) by reflexivity.
  split; [exact Hu|]. split; [exact Hv|]. split; [exact Hne|].
  split; [exact Hlive|]. split; [reflexivity|]. split; [exact Heq|].
  by rewrite (proj1 (add_pair_appends Example.impl w [1; 1] [] Hu Hv Hne Hlive Heq)).
Defined.

(** X7.  A quotient that a recording [add_pair] deletes (on an object
    whose parent, if it has one, was not deleted) is not deleted a second
    time by the destructor: [add_pair] clears the pointer, and the
    destructor run after it deletes nothing. *)
Theorem add_pair_then_destroy {St} (impl : Impl St) (w : World St)
    (u v : word_type) :
  validate_word (this w) u = Returns tt ->
  validate_word (this w) v = Returns tt ->
  u <> v ->
  parent_live w ->
  parent_equates w u v = false ->
  let w' := (add_pair impl u v w).2 in
  deleted w' = deleted w ++ released (_quotient (this w))
  /\ destroy w' = (Returns tt, w').
Proof.
  intros Hu Hv Hne Hlive Heq w'. unfold w'. rewrite add_pair_records by done.
  simpl. split; [done|].
  unfold destroy, bind, get, delete, ret. simpl.
  destruct (this w) as [? ? ? ? p ? ?]; simpl.
  case_bool_decide; done.
Qed.

Lemma add_pair_then_destroy_witness :
  let w := Example.after (quotient_semigroup Example.impl)
             (Example.after (set_parent_semigroup true (Some 1))
                (Example.after (add_pair Example.impl [2] [3])
                   (Example.after (set_nr_generators Example.impl 5)
                      (Example.fresh TWOSIDED)))) in
  validate_word (this w) [0] = Returns tt
  /\ validate_word (this w) [1] = Returns tt
  /\ [0] <> [1]
  /\ parent_live w
  /\ has_parent_semigroup (this w) = true
  /\ parent_equates w [0] [1] = false
  /\ _quotient (this w) = Some 100
  /\ deleted (destroy (add_pair Example.impl [0] [1] w).2).2 = [100].
Proof.
  intros w.
  assert (Hu : validate_word (this w) [0] = Returns tt) by reflexivity.
  assert (Hv : validate_word (this w) [1] = Returns tt) by reflexivity.
  assert (Hne : [0] <> [1] :> word_type) by discriminate.
  assert (Hlive : parent_live w) by (intros a _; vm_compute; by inversion 1).
  assert (Heq : parent_equates w [0] [1] = false) by reflexivity.
  destruct (add_pair_then_destroy Example.impl w [0] [1] Hu Hv Hne Hlive Heq)
    as [Hdel Hdestroy].
  split; [exact Hu|]. split; [exact Hv|]. split; [exact Hne|].
  split; [exact Hlive|]. split; [reflexivity|].
  split; [exact Heq|]. split; [reflexivity|].
  rewrite Hdestroy. cbn [snd]. rewrite Hdel. reflexivity.
Defined.

(** ** What the member functions change *)

#[global] Instance same_members_preorder : PreOrder same_members.
Proof.
  split.
  - by intros c.
  - intros c1 c2 c3 (?&?&?&?&?) (?&?&?&?&?). repeat split; congruence.
Qed.

Lemma scan_keeps_members {St} (impl : Impl St) (debug : bool) (p : pointer)
    (remaining : nat) (pos : N) :
  keeps same_members (scan impl debug p remaining pos).
Proof.
  revert pos. induction remaining as [|r IH]; intros pos; simpl.
  - keeps_step.
  - repeat keeps_step; try apply IH.
    apply keeps_modify. by intros c.
Qed.

Lemma init_non_trivial_classes_keeps_members {St} (impl : Impl St)
    (debug : bool) :
  keeps same_members (init_non_trivial_classes impl debug).
Proof.
  unfold init_non_trivial_classes.
  repeat keeps_step; try apply scan_keeps_members;
    apply keeps_modify; by intros c.
Qed.

Lemma set_nr_generators_changes {St} (impl : Impl St) (w : World St) (n : N) :
  changes (this w) (this (set_nr_generators impl n w).2).
Proof.
  unfold set_nr_generators, bind, get, throw, modify, virtual. simpl.
  case_bool_decide as Hn; simpl.
  - by apply changes_cache.
  - apply changes_count. unfold nr_generators in Hn.
    by destruct (decide (_nrgens (this w) = UNDEFINED)).
Qed.

Lemma add_pair_changes {St} (impl : Impl St) (w : World St) (u v : word_type) :
  changes (this w) (this (add_pair impl u v w).2).
Proof.
  destruct (add_pair_this impl w u v) as [->|(Hu & Hv & Hne & ->)].
  - by apply changes_cache.
  - by apply changes_pair.
Qed.

Lemma quotient_semigroup_changes {St} (impl : Impl St) (w : World St) :
  changes (this w) (this (quotient_semigroup impl w).2).
Proof.
  unfold quotient_semigroup, bind, get, throw, modify, virtual, ret. simpl.
  case_bool_decide; simpl; [by apply changes_cache|].
  destruct (is_quotient_obviously_infinite impl (sub w)) as [[[|]| | |] s1];
    simpl; try (by apply changes_cache).
  case_bool_decide as Hq; simpl; [|by apply changes_cache].
  destruct (quotient_impl impl s1) as [[q| | |] s2];
    simpl; try (by apply changes_cache).
  by apply changes_quotient.
Qed.

(** A computation that leaves the data members alone can be skipped over
    when reasoning about them. *)
Lemma bind_frame {St A B} (m : World St -> outcome A * World St)
    (k : A -> World St -> outcome B * World St) (w : World St)
    (P : CongBase -> Prop) :
  keeps eq m ->
  P (this w) ->
  (forall a w1, this w1 = this w -> P (this (k a w1).2)) ->
  P (this (bind m k w).2).
Proof.
  intros Hm Hw Hk. unfold bind. specialize (Hm w).
  destruct (m w) as [[a|e| |] w1]; simpl in *; rewrite <- ?Hm; try done.
  by apply Hk.
Qed.

Lemma bind_get {St B} (k : CongBase -> World St -> outcome B * World St)
    (w : World St) :
  bind get k w = k (this w) w.
Proof. reflexivity. Qed.

Lemma set_parent_semigroup_changes {St} (debug : bool) (w : World St)
    (prnt : pointer) :
  changes (this w) (this (set_parent_semigroup debug prnt w).2).
Proof.
  assert (Hsame : changes (this w) (this w)) by (by apply changes_cache).
  unfold set_parent_semigroup.
  apply bind_frame; [repeat keeps_step | exact Hsame | intros _ w1 H1].
  rewrite bind_get, H1.
  case_bool_decide as Hp; [simpl; by rewrite H1|].
  apply bind_frame; [repeat keeps_step | by rewrite H1 | intros _ w2 H2].
  apply bind_frame; [repeat keeps_step | by rewrite H2, H1 | intros _ w3 H3].
  unfold bind, modify, get, ret. simpl. rewrite H3, H2, H1.
  pose proof (changes_parent (this w) prnt Hp) as Hc.
  by destruct (bool_decide (_gen_pairs (this w) = [])).
Qed.

(** Every member function changes the data members in one of the five
    ways of [changes]. *)
Lemma perform_changes {St} (impl : Impl St) (debug : bool) (o : operation)
    (w : World St) :
  changes (this w) (this (perform impl debug o w)).
Proof.
  destruct o; simpl.
  - apply set_nr_generators_changes.
  - apply add_pair_changes.
  - apply changes_cache.
    assert (Hk : keeps same_members (contains impl w1 w2))
      by (unfold contains; repeat keeps_step).
    apply Hk.
  - apply changes_cache.
    assert (Hk : keeps same_members (less impl w1 w2))
      by (unfold less; repeat keeps_step).
    apply Hk.
  - apply quotient_semigroup_changes.
  - apply set_parent_semigroup_changes.
  - apply changes_cache.
    assert (Hk : keeps same_members (cbegin_ntc impl debug)).
    { unfold cbegin_ntc. apply keeps_bind;
        [apply _ | apply init_non_trivial_classes_keeps_members
        | intros ?; repeat keeps_step]. }
    apply Hk.
  - apply changes_cache.
    assert (Hk : keeps same_members (cend_ntc impl debug)).
    { unfold cend_ntc. apply keeps_bind;
        [apply _ | apply init_non_trivial_classes_keeps_members
        | intros ?; repeat keeps_step]. }
    apply Hk.
  - apply changes_cache.
    assert (Hk : keeps same_members (nr_non_trivial_classes impl debug)).
    { unfold nr_non_trivial_classes. apply keeps_bind;
        [apply _ | apply init_non_trivial_classes_keeps_members
        | intros ?; repeat keeps_step]. }
    apply Hk.
Qed.

(** ** Invariants of the data members *)

Lemma perform_all_invariant {St} (impl : Impl St) (debug : bool)
    (P : CongBase -> Prop) :
  (forall c c', changes c c' -> P c -> P c') ->
  forall (ops : list operation) (w : World St),
    P (this w) -> P (this (perform_all impl debug ops w)).
Proof.
  intros Hstep ops. induction ops as [|o ops IH]; intros w Hw; simpl; [done|].
  apply IH. eapply Hstep; [apply perform_changes | exact Hw].
Qed.

#[global] Instance grows_preorder : PreOrder grows.
Proof.
  split.
  - intros c. by split.
  - intros c1 c2 c3 (Hp1 & Ht1 & Hn1) (Hp2 & Ht2 & Hn2). split; [|split].
    + by etransitivity.
    + congruence.
    + intros Hn. rewrite Hn2; [by apply Hn1|]. by rewrite Hn1.
Qed.

Lemma changes_grows (c c' : CongBase) : changes c c' -> grows c c'.
Proof.
  destruct 1 as [c c' (Hg & Hn & _ & _ & Ht)|c u v _ _ _|c n Hn|c q _|c prnt _].
  - split; [by rewrite Hg|]. by split.
  - split; [by apply prefix_app_r|]. by split.
  - split; [done|]. split; [done|]. by intros [].
  - by split.
  - destruct (bool_decide (_gen_pairs c = [])); by split.
Qed.

(** X8.  No sequence of member function calls, returning or throwing,
    removes or reorders a recorded pair, changes the kind of the
    congruence, or changes a generator count that is set: the pairs at the
    start are a prefix of the pairs at the end. *)
Theorem members_only_grow {St} (impl : Impl St) (debug : bool)
    (ops : list operation) (w : World St) :
  let w' := perform_all impl debug ops w in
  cbegin_generating_pairs (this w) `prefix_of` cbegin_generating_pairs (this w')
  /\ type (this w') = type (this w)
  /\ (nr_generators (this w) <> UNDEFINED ->
      nr_generators (this w') = nr_generators (this w)).
Proof.
  intros w'.
  assert (H : grows (this w) (this w')); [|exact H].
  unfold w'. clear w'. revert w.
  induction ops as [|o ops IH]; intros w; simpl; [reflexivity|].
  etransitivity; [|apply IH]. apply changes_grows, perform_changes.
Qed.

Lemma members_only_grow_witness :
  let w := Example.after (add_pair Example.impl [0] [1])
             (Example.after (set_nr_generators Example.impl 2)
                (Example.fresh TWOSIDED)) in
  let w' := perform_all Example.impl true
              [do_set_nr_generators 7; do_add_pair [1] [0; 0];
               do_quotient_semigroup; do_add_pair [3] [0]] w in
  nr_generators (this w) <> UNDEFINED
  /\ nr_generators (this w') = 2
  /\ cbegin_generating_pairs (this w) = [([0], [1])]
  /\ cbegin_generating_pairs (this w') = [([0], [1]); ([1], [0; 0])].
Proof.
  intros w w'.
  assert (Hn : nr_generators (this w) <> UNDEFINED) by discriminate.
  pose proof (members_only_grow Example.impl true
                [do_set_nr_generators 7; do_add_pair [1] [0; 0];
                 do_quotient_semigroup; do_add_pair [3] [0]] w)
    as (_ & _ & Hcount).
  split; [exact Hn|]. split; [exact (Hcount Hn)|].
  split; vm_compute; reflexivity.
Defined.

Lemma pairs_valid_same (c c' : CongBase) :
  _gen_pairs c' = _gen_pairs c -> _nrgens c' = _nrgens c ->
  pairs_valid c -> pairs_valid c'.
Proof.
  intros Hg Hn. unfold pairs_valid, validate_word. rewrite Hg.
  intros Hc. eapply Forall_impl; [exact Hc|].
  intros [u v] (Hne & Hu & Hv). simpl in *.
  by rewrite !(validate_letters_same_count c c') by done.
Qed.

(** A recorded pair shows that the generator count is set. *)
Lemma pairs_valid_count (c : CongBase) (u v : word_type) :
  pairs_valid c -> (u, v) ∈ _gen_pairs c -> nr_generators c <> UNDEFINED.
Proof.
  intros Hc Hin Hn. unfold pairs_valid in Hc. rewrite Forall_forall in Hc.
  destruct (Hc _ Hin) as (Hne & Hu & Hv). simpl in *.
  destruct u as [|a u'].
  - destruct v as [|b v']; [done|].
    unfold validate_word in Hv. by rewrite validate_letters_unset in Hv.
  - unfold validate_word in Hu. by rewrite validate_letters_unset in Hu.
Qed.

Lemma changes_pairs_valid (c c' : CongBase) :
  changes c c' -> pairs_valid c -> pairs_valid c'.
Proof.
  destruct 1 as [c c' (Hg & Hn & _)|c u v Hu Hv Hne|c n Hn|c q _|c prnt _];
    intros Hc.
  - by apply (pairs_valid_same c).
  - unfold pairs_valid. simpl. apply Forall_app. split.
    + eapply Forall_impl; [exact Hc|].
      intros [x y] (Hxy & Hx & Hy). simpl in *. split; [done|].
      unfold validate_word in *.
      split; [rewrite <- Hx | rewrite <- Hy];
        by apply validate_letters_same_count.
    + apply Forall_singleton. simpl. split; [done|].
      unfold validate_word in *.
      split; [rewrite <- Hu | rewrite <- Hv];
        by apply validate_letters_same_count.
  - assert (Hnil : _gen_pairs c = []).
    { destruct (_gen_pairs c) as [|[u v] l] eqn:Hg; [done|].
      exfalso. apply (pairs_valid_count c u v Hc); [|done].
      rewrite Hg. by left. }
    unfold pairs_valid. simpl. rewrite Hnil. constructor.
  - by apply (pairs_valid_same c).
  - destruct (bool_decide (_gen_pairs c = [])); by apply (pairs_valid_same c).
Qed.

(** X9.  If every recorded pair is made of two different words that
    validate, this still holds after any sequence of member function calls;
    and then, for each recorded pair, the generator count is set and the
    letters of both words are below it. *)
Theorem recorded_pairs_valid {St} (impl : Impl St) (debug : bool)
    (ops : list operation) (w : World St) :
  pairs_valid (this w) ->
  let c := this (perform_all impl debug ops w) in
  pairs_valid c
  /\ forall u v,
       (u, v) ∈ cbegin_generating_pairs c ->
       u <> v
       /\ nr_generators c <> UNDEFINED
       /\ Forall (fun l => l < nr_generators c) u
       /\ Forall (fun l => l < nr_generators c) v.
Proof.
  intros Hw c.
  assert (Hc : pairs_valid c)
    by (by apply (perform_all_invariant impl debug pairs_valid changes_pairs_valid)).
  split; [exact Hc|]. intros u v Hin.
  pose proof (pairs_valid_count c u v Hc Hin) as Hn.
  unfold pairs_valid in Hc. rewrite Forall_forall in Hc.
  destruct (Hc _ Hin) as (Hne & Hu & Hv). simpl in *.
  split; [done|]. split; [done|].
  split; [exact (proj1 (validate_letters_ok c u u Hn) Hu)
         | exact (proj1 (validate_letters_ok c v v Hn) Hv)].
Qed.

Lemma recorded_pairs_valid_witness :
  let c := this (perform_all Example.impl false
                   [do_add_pair [0] [1]; do_set_nr_generators 2;
                    do_add_pair [0] [1]; do_add_pair [1] [1];
                    do_add_pair [0; 1] [2]; do_add_pair [] [1; 1]]
                   (Example.fresh LEFT)) in
  pairs_valid (this (Example.fresh LEFT))
  /\ cbegin_generating_pairs c = [([0], [1]); ([], [1; 1])]
  /\ pairs_valid c.
Proof.
  intros c.
  assert (H0 : pairs_valid (this (Example.fresh LEFT))) by constructor.
  split; [exact H0|]. split; [vm_compute; reflexivity|].
  exact (proj1 (recorded_pairs_valid Example.impl false _ (Example.fresh LEFT) H0)).
Defined.

Lemma changes_parent_is_quotient (c c' : CongBase) :
  changes c c' -> parent_is_quotient c -> parent_is_quotient c'.
Proof.
  unfold parent_is_quotient.
  destruct 1 as [c c' (Hg & _ & Hp & Hq & _)|c u v _ _ _|c n _|c q Hq|c prnt _];
    intros Hc; simpl.
  - by rewrite Hg, Hp, Hq.
  - intros Hnil. by destruct (_gen_pairs c).
  - done.
  - intros Hnil Hp. specialize (Hc Hnil Hp). congruence.
  - case_bool_decide as Hnil; simpl; [done|]. by intros ?.
Qed.

(** X10.  If an attached parent is the quotient while no pair is recorded,
    this still holds after any sequence of member function calls.  It holds
    of a new object, so in every state reached from one, a parent attached
    to an object without pairs is what the quotient pointer refers to. *)
Theorem parent_stays_quotient {St} (impl : Impl St) (debug : bool)
    (ops : list operation) (w : World St) :
  parent_is_quotient (this w) ->
  let c := this (perform_all impl debug ops w) in
  cbegin_generating_pairs c = [] ->
  has_parent_semigroup c = true ->
  _quotient c = _parent c.
Proof.
  intros Hw c Hnil Hp.
  assert (Hc : parent_is_quotient c)
    by (by apply (perform_all_invariant impl debug parent_is_quotient
                    changes_parent_is_quotient)).
  apply Hc; [exact Hnil|].
  unfold has_parent_semigroup in Hp. by apply bool_decide_eq_true in Hp.
Qed.

Lemma parent_stays_quotient_witness :
  let c := this (perform_all Example.impl true
                   [do_quotient_semigroup; do_set_nr_generators 5;
                    do_set_parent_semigroup (Some 1); do_add_pair [2] [2];
                    do_quotient_semigroup; do_nr_non_trivial_classes]
                   (Example.fresh TWOSIDED)) in
  parent_is_quotient (this (Example.fresh TWOSIDED))
  /\ cbegin_generating_pairs c = []
  /\ has_parent_semigroup c = true
  /\ _quotient c = _parent c.
Proof.
  intros c.
  assert (H0 : parent_is_quotient (this (Example.fresh TWOSIDED)))
    by (intros _ Hp; done).
  assert (Hnil : cbegin_generating_pairs c = []) by (vm_compute; reflexivity).
  assert (Hp : has_parent_semigroup c = true) by (vm_compute; reflexivity).
  split; [exact H0|]. split; [exact Hnil|]. split; [exact Hp|].
  exact (parent_stays_quotient Example.impl true _ (Example.fresh TWOSIDED)
           H0 Hnil Hp).
Defined.

(** ** Attaching a parent *)

(** [set_parent_semigroup], case by case. *)
Lemma set_parent_semigroup_run {St} (debug : bool) (prnt : pointer)
    (w : World St) :
  set_parent_semigroup debug prnt w
  = if debug && negb (bool_decide (prnt <> nullptr) || dead (sub w).1)
    then (Aborts, w)
    else if bool_decide (prnt = _parent (this w)) then (Returns tt, w)
    else if debug && negb (bool_decide (_parent (this w) = nullptr)
                           || dead (sub w).1)
    then (Aborts, w)
    else if debug then
      match prnt with
      | None => (Undefined, w)
      | Some a =>
          if bool_decide (a ∈ deleted w) then (Undefined, w)
          else if bool_decide (FroidurePinBase.nr_generators (heap w a)
                               = nr_generators (this w))
                  || bool_decide (nr_generators (this w) = UNDEFINED)
                  || dead (sub w).1
          then (Returns tt, attached prnt w)
          else (Aborts, w)
      end
    else (Returns tt, attached prnt w).
Proof.
  unfold set_parent_semigroup, LIBSEMIGROUPS_ASSERT, attached.
  destruct debug; simpl.
  - unfold bind at 1 2. unfold bind at 1, get_runner, ret at 1. simpl.
    destruct (bool_decide (prnt <> nullptr) || dead (sub w).1); simpl; [|done].
    unfold bind at 1, get. simpl.
    destruct (bool_decide (prnt = _parent (this w))); [done|].
    unfold bind at 1 2. unfold bind at 1, ret at 1. simpl.
    destruct (bool_decide (_parent (this w) = nullptr) || dead (sub w).1);
      simpl; [|done].
    unfold bind at 1 2. unfold bind at 1, deref.
    destruct prnt as [a|]; simpl; [|done].
    destruct (bool_decide (a ∈ deleted w)); simpl; [done|].
    unfold bind at 1, ret at 1. simpl.
    destruct (bool_decide (FroidurePinBase.nr_generators (heap w a)
                           = nr_generators (this w))
              || bool_decide (nr_generators (this w) = UNDEFINED)
              || dead (sub w).1); simpl; [|done].
    unfold bind, modify, get, ret. simpl.
    by destruct (bool_decide (_gen_pairs (this w) = [])).
  - unfold bind at 1, ret at 1. unfold bind at 1, get. simpl.
    destruct (bool_decide (prnt = _parent (this w))); [done|].
    unfold bind at 1, ret at 1. unfold bind at 1, ret at 1.
    unfold bind, modify, get, ret. simpl.
    by destruct (bool_decide (_gen_pairs (this w) = [])).
Qed.

(** X11.  When [set_parent_semigroup(prnt)] returns, the parent pointer is
    [prnt]; the quotient pointer is untouched if a pair is recorded; and
    the same call made again returns with nothing changed. *)
Theorem set_parent_semigroup_idempotent {St} (debug : bool) (prnt : pointer)
    (w : World St) :
  (set_parent_semigroup debug prnt w).1 = Returns tt ->
  let w1 := (set_parent_semigroup debug prnt w).2 in
  _parent (this w1) = prnt
  /\ (_gen_pairs (this w) <> [] -> _quotient (this w1) = _quotient (this w))
  /\ set_parent_semigroup debug prnt w1 = (Returns tt, w1).
Proof.
  intros Hret w1.
  assert (Hcases : (w1 = w /\ prnt = _parent (this w)) \/ w1 = attached prnt w).
  { unfold w1. revert Hret. rewrite set_parent_semigroup_run.
    repeat case_match; simpl; try done; try (by right).
    left. split; [done|]. by eapply bool_decide_eq_true_1. }
  assert (Hfirst : debug && negb (bool_decide (prnt <> nullptr) || dead (sub w).1)
                   = false).
  { revert Hret. rewrite set_parent_semigroup_run.
    by destruct (debug && negb (bool_decide (prnt <> nullptr) || dead (sub w).1)). }
  assert (Hpar : _parent (this w1) = prnt).
  { destruct Hcases as [[-> ->]| ->]; [done|]. unfold attached. simpl.
    by destruct (bool_decide (_gen_pairs (this w) = [])). }
  assert (Hsub : sub w1 = sub w) by (by destruct Hcases as [[-> _]| ->]).
  split; [exact Hpar|]. split.
  - intros Hne. destruct Hcases as [[-> _]| ->]; [done|].
    unfold attached. simpl. by rewrite bool_decide_eq_false_2.
  - rewrite set_parent_semigroup_run. rewrite Hsub, Hfirst.
    by rewrite bool_decide_eq_true_2.
Qed.

Lemma set_parent_semigroup_idempotent_witness :
  let w := Example.after (add_pair Example.impl [0] [1])
             (Example.after (set_nr_generators Example.impl 5)
                (Example.after (quotient_semigroup Example.impl)
                   (Example.fresh TWOSIDED))) in
  let w1 := (set_parent_semigroup true (@Some address 1) w).2 in
  (set_parent_semigroup true (@Some address 1) w).1 = Returns tt
  /\ _gen_pairs (this w) <> []
  /\ _parent (this w1) = Some 1
  /\ _quotient (this w1) = nullptr
  /\ set_parent_semigroup true (@Some address 1) w1 = (Returns tt, w1).
Proof.
  intros w w1.
  assert (Hret : (set_parent_semigroup true (@Some address 1) w).1 = Returns tt)
    by reflexivity.
  assert (Hne : _gen_pairs (this w) <> []) by discriminate.
  destruct (set_parent_semigroup_idempotent true (@Some address 1) w Hret)
    as (Hpar & Hquo & Hagain).
  split; [exact Hret|]. split; [exact Hne|]. split; [exact Hpar|].
  split; [exact (Hquo Hne) | exact Hagain].
Defined.

(** ** Membership and ordering under a classification *)

Lemma contains_answers {St} (impl : Impl St) (stable : Runner * St -> Prop)
    (cls : word_type -> class_index_type) (w : World St) (u v : word_type) :
  answers impl stable cls -> stable (sub w) ->
  (contains impl u v w).1
  = Returns (bool_decide (u = v) || bool_decide (cls u = cls v))
  /\ stable (sub (contains impl u v w).2).
Proof.
  intros Hcls Hst. unfold contains.
  case_bool_decide as Huv; [done|]. simpl.
  unfold bind, virtual, ret. simpl.
  destruct (Hcls (sub w) u Hst) as [H1 Hst1].
  destruct (word_to_class_index impl u (sub w)) as [o s1]. simpl in *. subst o.
  destruct (Hcls s1 v Hst1) as [H2 Hst2].
  destruct (word_to_class_index impl v s1) as [o s2]. simpl in *. by subst o.
Qed.

Lemma less_answers {St} (impl : Impl St) (stable : Runner * St -> Prop)
    (cls : word_type -> class_index_type) (w : World St) (u v : word_type) :
  answers impl stable cls -> stable (sub w) ->
  (less impl u v w).1 = Returns (cls u <? cls v)
  /\ stable (sub (less impl u v w).2).
Proof.
  intros Hcls Hst. unfold less, bind, virtual, ret. simpl.
  destruct (Hcls (sub w) u Hst) as [H1 Hst1].
  destruct (word_to_class_index impl u (sub w)) as [o s1]. simpl in *. subst o.
  destruct (Hcls s1 v Hst1) as [H2 Hst2].
  destruct (word_to_class_index impl v s1) as [o s2]. simpl in *. by subst o.
Qed.

(** X12.  Over a classification that answers [cls], [contains] and [less]
    return, [contains(u, v)] says whether the class indices are equal and
    [less(u, v)] whether the first is smaller, so of [contains(u, v)],
    [less(u, v)] and [less(v, u)] exactly one is true, asked in any state
    the classification is stable in. *)
Theorem contains_less_trichotomy {St} (impl : Impl St)
    (stable : Runner * St -> Prop) (cls : word_type -> class_index_type)
    (w1 w2 w3 : World St) (u v : word_type) :
  answers impl stable cls ->
  stable (sub w1) -> stable (sub w2) -> stable (sub w3) ->
  exists c l g : bool,
    (contains impl u v w1).1 = Returns c
    /\ (less impl u v w2).1 = Returns l
    /\ (less impl v u w3).1 = Returns g
    /\ (c = true <-> cls u = cls v)
    /\ (l = true <-> cls u < cls v)
    /\ (g = true <-> cls v < cls u)
    /\ ((c = true /\ l = false /\ g = false)
        \/ (c = false /\ l = true /\ g = false)
        \/ (c = false /\ l = false /\ g = true)).
Proof.
  intros Hcls H1 H2 H3.
  destruct (contains_answers impl stable cls w1 u v Hcls H1) as [Hc _].
  destruct (less_answers impl stable cls w2 u v Hcls H2) as [Hl _].
  destruct (less_answers impl stable cls w3 v u Hcls H3) as [Hg _].
  eexists _, _, _. split; [exact Hc|]. split; [exact Hl|]. split; [exact Hg|].
  assert (Hceq : bool_decide (u = v) || bool_decide (cls u = cls v) = true
                 <-> cls u = cls v).
  { rewrite orb_true_iff, !bool_decide_eq_true. split; [|by right].
    by intros [->|?]. }
  split; [exact Hceq|]. rewrite !N.ltb_lt. split; [done|]. split; [done|].
  assert (Hcne : cls u <> cls v ->
            bool_decide (u = v) || bool_decide (cls u = cls v) = false)
    by (intros Hne; apply not_true_is_false; by rewrite Hceq).
  destruct (N.lt_trichotomy (cls u) (cls v)) as [Hlt|[Heq|Hgt]].
  - right. left. split; [apply Hcne; lia|]. split; [done|].
    apply N.ltb_ge. lia.
  - left. split; [by apply Hceq|]. split; apply N.ltb_ge; lia.
  - right. right. split; [apply Hcne; lia|]. split; [|done].
    apply N.ltb_ge. lia.
Qed.

Lemma contains_less_trichotomy_witness :
  answers Example.impl (fun _ => True) Example.class_of
  /\ (contains Example.impl [0] [2] (Example.fresh LEFT)).1 = Returns false
  /\ (less Example.impl [0] [2] (Example.fresh LEFT)).1 = Returns true
  /\ exists c l g : bool,
       (contains Example.impl [0] [2] (Example.fresh LEFT)).1 = Returns c
       /\ (less Example.impl [0] [2] (Example.fresh LEFT)).1 = Returns l
       /\ (less Example.impl [2] [0] (Example.fresh LEFT)).1 = Returns g
       /\ ((c = true /\ l = false /\ g = false)
           \/ (c = false /\ l = true /\ g = false)
           \/ (c = false /\ l = false /\ g = true)).
Proof.
  assert (Hcls : answers Example.impl (fun _ => True) Example.class_of)
    by (intros s x _; split; [reflexivity | exact I]).
  split; [exact Hcls|]. split; [reflexivity|]. split; [reflexivity|].
  destruct (contains_less_trichotomy Example.impl (fun _ => True)
              Example.class_of (Example.fresh LEFT) (Example.fresh LEFT)
              (Example.fresh LEFT) [0] [2] Hcls I I I)
    as (c & l & g & Hc & Hl & Hg & _ & _ & _ & Hone).
  exists c, l, g. split; [exact Hc|]. split; [exact Hl|]. split; [exact Hg|].
  exact Hone.
Defined.

(** X13.  [const_contains] is symmetric in its two words; asked about a
    word and itself it answers TRUE when the class index of the word is
    defined and UNKNOWN when it is not, and never FALSE. *)
Theorem const_contains_symmetric {St} (impl : Impl St) (w : World St)
    (u v : word_type) :
  const_contains impl u v w = const_contains impl v u w
  /\ const_contains impl u u w
     = (if bool_decide (const_word_to_class_index impl (sub w) u = UNDEFINED)
        then UNKNOWN else TRUE).
Proof.
  unfold const_contains. split.
  - rewrite orb_comm.
    destruct (bool_decide (const_word_to_class_index impl (sub w) v = UNDEFINED)
              || bool_decide (const_word_to_class_index impl (sub w) u = UNDEFINED));
      [done|].
    repeat case_bool_decide; congruence.
  - rewrite orb_diag. case_bool_decide; [done|].
    by rewrite bool_decide_eq_true_2.
Qed.

(** ** The non-trivial classes without a parent, and after a failure *)

(** X14.  On an object without a parent whose classes were not computed,
    [init_non_trivial_classes] and the three readers of the classes throw
    "there's no parent semigroup in which to find the non-trivial classes"
    and change nothing; so the computation can still be made once a parent
    is attached. *)
Theorem non_trivial_classes_need_parent {St} (impl : Impl St) (debug : bool)
    (w : World St) :
  _init_ntc_done (this w) = false ->
  has_parent_semigroup (this w) = false ->
  init_non_trivial_classes impl debug w = (Throws no_parent_for_classes, w)
  /\ cbegin_ntc impl debug w = (Throws no_parent_for_classes, w)
  /\ cend_ntc impl debug w = (Throws no_parent_for_classes, w)
  /\ nr_non_trivial_classes impl debug w = (Throws no_parent_for_classes, w).
Proof.
  intros Hdone Hp.
  assert (Hinit : init_non_trivial_classes impl debug w
                  = (Throws no_parent_for_classes, w)).
  { unfold init_non_trivial_classes. unfold bind at 1, get. simpl.
    rewrite Hdone. unfold has_parent_semigroup in Hp.
    apply bool_decide_eq_false in Hp.
    rewrite bool_decide_eq_true_2; [done|].
    by destruct (decide (_parent (this w) = nullptr)). }
  split; [exact Hinit|].
  unfold cbegin_ntc, cend_ntc, nr_non_trivial_classes.
  unfold bind at 1 3 5. by rewrite Hinit.
Qed.

Lemma non_trivial_classes_need_parent_witness :
  _init_ntc_done (this (Example.fresh LEFT)) = false
  /\ has_parent_semigroup (this (Example.fresh LEFT)) = false
  /\ nr_non_trivial_classes Example.impl true (Example.fresh LEFT)
     = (Throws no_parent_for_classes, Example.fresh LEFT).
Proof.
  assert (Hdone : _init_ntc_done (this (Example.fresh LEFT)) = false)
    by reflexivity.
  assert (Hp : has_parent_semigroup (this (Example.fresh LEFT)) = false)
    by reflexivity.
  split; [exact Hdone|]. split; [exact Hp|].
  exact (proj2 (proj2 (proj2 (non_trivial_classes_need_parent Example.impl true
                                (Example.fresh LEFT) Hdone Hp)))).
Defined.

(** X15.  [init_non_trivial_classes] sets its flag before it scans the
    parent.  On an object with a parent whose classes were not computed
    (and, in a debug build, with a finite class count returned to the
    assertion), the flag is set afterwards whether the scan returned or a
    classification threw; the next call returns at once, and
    [nr_non_trivial_classes] then counts the buckets as the first call left
    them. *)
Theorem init_non_trivial_classes_flag_first {St} (impl : Impl St)
    (debug : bool) (w : World St) :
  _init_ntc_done (this w) = false ->
  _parent (this w) <> nullptr ->
  (debug = true ->
   exists n, (nr_classes impl (sub w)).1 = Returns n /\ n <> POSITIVE_INFINITY) ->
  let w' := (init_non_trivial_classes impl debug w).2 in
  _init_ntc_done (this w') = true
  /\ init_non_trivial_classes impl debug w' = (Returns tt, w')
  /\ nr_non_trivial_classes impl debug w'
     = (Returns (N.of_nat (length (_non_trivial_classes (this w')))), w').
Proof.
  intros Hdone Hp Hassert w'.
  assert (Hflag : _init_ntc_done (this w') = true).
  { unfold w', init_non_trivial_classes. unfold bind at 1, get. simpl.
    rewrite Hdone. rewrite bool_decide_eq_false_2 by done.
    unfold bind at 1.
    assert (Hpass : exists wa,
              LIBSEMIGROUPS_ASSERT debug
                (bind (virtual call_nr_classes (nr_classes impl))
                   (fun n => ret (bool_decide (n <> POSITIVE_INFINITY)))) w
              = (Returns tt, wa)).
    { unfold LIBSEMIGROUPS_ASSERT. destruct debug; [|by eexists].
      destruct (Hassert eq_refl) as (n & Hn & Hfin).
      unfold bind, virtual, ret. simpl. rewrite Hn. simpl.
      rewrite bool_decide_eq_true_2 by done. by eexists. }
    destruct Hpass as [wa ->].
    unfold bind at 1, modify. simpl.
    match goal with
    | |- _init_ntc_done (this (?rest ?x).2) = true =>
        assert (Hk : keeps same_flag rest)
    end.
    { repeat keeps_step; try apply scan_keeps_flag; by intros ?. }
    exact (Hk {| this := with_init_ntc_done true (this wa);
                 sub := sub wa; heap := heap wa;
                 deleted := deleted wa; calls := calls wa |}). }
  pose proof (init_non_trivial_classes_done impl debug w' Hflag) as Hagain.
  split; [exact Hflag|]. split; [exact Hagain|].
  unfold nr_non_trivial_classes. unfold bind at 1. rewrite Hagain.
  reflexivity.
Qed.

Lemma init_non_trivial_classes_flag_first_witness :
  let w := Example.after (set_parent_semigroup false (@Some address 1))
             (Example.fresh TWOSIDED) in
  let w' := (init_non_trivial_classes Interrupted.impl false w).2 in
  _init_ntc_done (this w) = false
  /\ _parent (this w) <> nullptr
  /\ (init_non_trivial_classes Interrupted.impl false w).1
     = Throws (other "interrupted")
  /\ _init_ntc_done (this w') = true
  /\ nr_non_trivial_classes Interrupted.impl false w' = (Returns 3, w').
Proof.
  intros w w'.
  assert (Hdone : _init_ntc_done (this w) = false) by reflexivity.
  assert (Hp : _parent (this w) <> nullptr) by discriminate.
  destruct (init_non_trivial_classes_flag_first Interrupted.impl false w Hdone Hp)
    as (Hflag & _ & Hcount); [discriminate|].
  split; [exact Hdone|]. split; [exact Hp|]. split; [reflexivity|].
  split; [exact Hflag | exact Hcount].
Defined.

(** ** The labels of the kinds *)

(** X16.  Different kinds of congruence have different labels, so a label
    determines the kind. *)
Theorem congruence_type_to_string_injective (a b : congruence_type) :
  a <> b -> congruence_type_to_string a <> congruence_type_to_string b.
Proof.
  destruct a, b; simpl; intros H; try done.
Qed.

Lemma congruence_type_to_string_injective_witness :
  LEFT <> TWOSIDED
  /\ congruence_type_to_string LEFT <> congruence_type_to_string TWOSIDED.
Proof.
  assert (H : LEFT <> TWOSIDED) by discriminate.
  split; [exact H|]. exact (congruence_type_to_string_injective LEFT TWOSIDED H).
Defined.

(** ** What is deleted *)

Section Quiet.
Context {St : Type} (impl : Impl St) (debug : bool).

#[local] Instance same_store_preorder : PreOrder (@same_store St).
Proof.
  split.
  - by intros w.
  - intros w1 w2 w3 [? ?] [? ?]. split; congruence.
Qed.

Lemma quiet_ret {A} (a : A) : preserves (St:=St) same_store (ret a).
Proof. by intros w. Qed.

Lemma quiet_throw {A} (e : exception) : preserves same_store (@throw St A e).
Proof. by intros w. Qed.

Lemma quiet_undefined {A} : preserves same_store (@undefined St A).
Proof. by intros w. Qed.

Lemma quiet_get : preserves same_store (@get St).
Proof. by intros w. Qed.

Lemma quiet_get_runner : preserves same_store (@get_runner St).
Proof. by intros w. Qed.

Lemma quiet_const {A} (f : CongBase -> outcome A) :
  preserves same_store (@const St A f).
Proof. by intros w. Qed.

Lemma quiet_log (c : call) : preserves same_store (@log St c).
Proof. by intros w. Qed.

Lemma quiet_virtual {A} (c : call) f : preserves same_store (@virtual St A c f).
Proof. by intros w. Qed.

Lemma quiet_deref {A} (p : pointer) (f : FroidurePinBase.t -> A) :
  preserves same_store (@deref St A p f).
Proof.
  intros w. unfold deref. destruct p; [case_bool_decide|]; done.
Qed.

Lemma quiet_logged (p : pointer) (c : address -> call) :
  preserves same_store (@logged St p c).
Proof. intros w. by destruct p. Qed.

Lemma quiet_modify (f : CongBase -> CongBase) :
  preserves same_store (@modify St f).
Proof. by intros w. Qed.

Lemma quiet_modify_runner (f : Runner -> Runner) :
  preserves same_store (@modify_runner St f).
Proof. by intros w. Qed.

Lemma quiet_bind {A B} (m : World St -> outcome A * World St)
    (k : A -> World St -> outcome B * World St) :
  preserves same_store m -> (forall a, preserves same_store (k a)) ->
  preserves same_store (bind m k).
Proof.
  intros Hm Hk w. unfold bind. specialize (Hm w).
  destruct (m w) as [[a|e| |] w']; simpl in *; try assumption.
  etransitivity; [exact Hm | apply Hk].
Qed.

Lemma quiet_assert (c : World St -> outcome bool * World St) :
  preserves same_store c -> preserves same_store (LIBSEMIGROUPS_ASSERT debug c).
Proof.
  intros Hc. unfold LIBSEMIGROUPS_ASSERT. destruct debug; [|apply quiet_ret].
  apply quiet_bind; [exact Hc|]. intros [|]; [apply quiet_ret|]. by intros w.
Qed.

End Quiet.

(** One step of a proof that a member function deletes nothing. *)
Ltac quiet_step :=
  first
    [ apply quiet_bind; [|intros ?]
    | apply quiet_assert
    | apply quiet_ret | apply quiet_throw | apply quiet_undefined
    | apply quiet_get | apply quiet_get_runner | apply quiet_const
    | apply quiet_log | apply quiet_virtual | apply quiet_deref
    | apply quiet_logged | apply quiet_modify | apply quiet_modify_runner
    | assumption
    | match goal with
      | |- preserves _ (if ?b then _ else _) => destruct b
      | |- preserves _ (match ?x with _ => _ end) => destruct x
      end ].

Lemma scan_quiet {St} (impl : Impl St) (debug : bool) (p : pointer)
    (remaining : nat) (pos : N) :
  preserves same_store (scan impl debug p remaining pos).
Proof.
  revert pos. induction remaining as [|r IH]; intros pos; simpl.
  - quiet_step.
  - repeat quiet_step. apply IH.
Qed.

Lemma init_non_trivial_classes_quiet {St} (impl : Impl St) (debug : bool) :
  preserves same_store (init_non_trivial_classes impl debug).
Proof.
  unfold init_non_trivial_classes. repeat quiet_step. apply scan_quiet.
Qed.

(** X17.  Of the member functions only [add_pair] passes anything to
    [delete], and what it passes is the quotient pointer it then clears:
    every other call, returning or throwing, deletes nothing, and an
    [add_pair] deletes either nothing or the quotient. *)
Theorem only_add_pair_deletes {St} (impl : Impl St) (debug : bool)
    (o : operation) (w : World St) :
  (is_add_pair o = false -> deleted (perform impl debug o w) = deleted w)
  /\ (deleted (perform impl debug o w) = deleted w
      \/ deleted (perform impl debug o w)
         = deleted w ++ released (_quotient (this w))).
Proof.
  assert (Hquiet : is_add_pair o = false ->
                   deleted (perform impl debug o w) = deleted w).
  { destruct o; simpl; try done; intros _;
      match goal with
      | |- deleted (?m w).2 = _ =>
          assert (Hk : preserves same_store m); [|exact (proj1 (Hk w))]
      end.
    - unfold set_nr_generators. repeat quiet_step.
    - unfold contains. repeat quiet_step.
    - unfold less. repeat quiet_step.
    - unfold quotient_semigroup. repeat quiet_step.
    - unfold set_parent_semigroup. repeat quiet_step.
    - unfold cbegin_ntc. apply quiet_bind;
        [apply init_non_trivial_classes_quiet | intros ?; repeat quiet_step].
    - unfold cend_ntc. apply quiet_bind;
        [apply init_non_trivial_classes_quiet | intros ?; repeat quiet_step].
    - unfold nr_non_trivial_classes. apply quiet_bind;
        [apply init_non_trivial_classes_quiet | intros ?; repeat quiet_step]. }
  split; [exact Hquiet|].
  destruct (is_add_pair o) eqn:Ho; [|left; by apply Hquiet].
  destruct o as [|u v| | | | | | |]; try done. simpl.
  destruct (validate_word_outcome (this w) u) as [Hu|[e Hu]].
  - destruct (validate_word_outcome (this w) v) as [Hv|[e Hv]].
    + destruct (decide (u = v)) as [->|Hne].
      * left. unfold add_pair, bind, const. rewrite Hv.
        by rewrite bool_decide_eq_true_2.
      * destruct (parent_live_dec w) as [Hlive|(a & Hp & Hdead)].
        -- destruct (parent_equates w u v) eqn:Heq.
           ++ left. by rewrite add_pair_skips.
           ++ right. by rewrite add_pair_records.
        -- left. by rewrite (add_pair_dead_parent impl w u v a).
    + left. by rewrite (add_pair_second_word_invalid impl w u v e).
  - left. unfold add_pair, bind, const. by rewrite Hu.
Qed.

Lemma only_add_pair_deletes_witness :
  let w := Example.after (quotient_semigroup Example.impl)
             (Example.after (set_nr_generators Example.impl 5)
                (Example.fresh TWOSIDED)) in
  is_add_pair (do_set_parent_semigroup (Some 1)) = false
  /\ _quotient (this w) = Some 100
  /\ _quotient (this (perform Example.impl false
                        (do_set_parent_semigroup (Some 1)) w)) = Some 1
  /\ deleted (perform Example.impl false (do_set_parent_semigroup (Some 1)) w)
     = deleted w.
Proof.
  intros w.
  assert (Ho : is_add_pair (do_set_parent_semigroup (Some 1)) = false)
    by reflexivity.
  split; [exact Ho|]. split; [reflexivity|]. split; [reflexivity|].
  exact (proj1 (only_add_pair_deletes Example.impl false
                  (do_set_parent_semigroup (Some 1)) w) Ho).
Defined.

(** ** A quotient that cannot be built *)

(** X18.  When the concrete class throws while building the quotient of a
    two-sided congruence, [quotient_semigroup] throws the same exception
    and caches nothing: the data members are as before, and a later call
    asks the concrete class again. *)
Theorem quotient_semigroup_build_fails {St} (impl : Impl St) (w : World St)
    (s1 s2 : Runner * St) (e : exception) :
  type (this w) = TWOSIDED ->
  _quotient (this w) = nullptr ->
  is_quotient_obviously_infinite impl (sub w) = (Returns false, s1) ->
  quotient_impl impl s1 = (Throws e, s2) ->
  quotient_semigroup impl w
  = (Throws e,
     {| this := this w; sub := s2; heap := heap w; deleted := deleted w;
        calls := calls w ++ [call_is_quotient_obviously_infinite;
                             call_quotient_impl] |}).
Proof.
  intros Ht Hq Hinf Hbuild.
  unfold quotient_semigroup, bind, get, virtual, throw, ret, modify. simpl.
  rewrite bool_decide_eq_false_2 by (rewrite Ht; tauto).
  rewrite Hinf. simpl. rewrite Hq. simpl. rewrite Hbuild. simpl.
  by rewrite <- app_assoc.
Qed.

Lemma quotient_semigroup_build_fails_witness :
  let w := World_new TWOSIDED O Example.store in
  type (this w) = TWOSIDED
  /\ _quotient (this w) = nullptr
  /\ is_quotient_obviously_infinite Interrupted.impl (sub w) = (Returns false, sub w)
  /\ quotient_impl Interrupted.impl (sub w) = (Throws (other "interrupted"), sub w)
  /\ (quotient_semigroup Interrupted.impl w).1 = Throws (other "interrupted")
  /\ has_quotient_semigroup (this (quotient_semigroup Interrupted.impl w).2) = false.
Proof.
  intros w.
  assert (Ht : type (this w) = TWOSIDED) by reflexivity.
  assert (Hq : _quotient (this w) = nullptr) by reflexivity.
  assert (Hinf : is_quotient_obviously_infinite Interrupted.impl (sub w)
                 = (Returns false, sub w)) by reflexivity.
  assert (Hbuild : quotient_impl Interrupted.impl (sub w)
                   = (Throws (other "interrupted"), sub w)) by reflexivity.
  split; [exact Ht|]. split; [exact Hq|]. split; [exact Hinf|].
  split; [exact Hbuild|].
  rewrite (quotient_semigroup_build_fails Interrupted.impl w _ _ _ Ht Hq Hinf Hbuild).
  split; reflexivity.
Defined.

(** ** How long a built quotient stays cached *)

#[global] Instance same_quotient_preorder : PreOrder same_quotient.
Proof.
  split.
  - by intros c.
  - intros c1 c2 c3 [? ?] [? ?]. split; congruence.
Qed.

(** With a quotient cached, [quotient_semigroup] leaves the data members
    alone, whatever its outcome. *)
Lemma quotient_semigroup_keeps_cached {St} (impl : Impl St) (w : World St)
    (a : address) :
  _quotient (this w) = Some a -> this (quotient_semigroup impl w).2 = this w.
Proof.
  intros Hq.
  unfold quotient_semigroup, bind, get, throw, modify, virtual, ret. simpl.
  case_bool_decide; simpl; [done|].
  destruct (is_quotient_obviously_infinite impl (sub w)) as [[[|]| | |] s1];
    simpl; try done.
  rewrite Hq. simpl. done.
Qed.

(** A member function other than [add_pair] and [set_parent_semigroup]
    leaves a cached quotient and the kind as they are. *)
Lemma perform_keeps_quotient {St} (impl : Impl St) (debug : bool)
    (o : operation) (w : World St) (a : address) :
  is_add_pair o = false ->
  is_set_parent_semigroup o = false ->
  _quotient (this w) = Some a ->
  same_quotient (this w) (this (perform impl debug o w)).
Proof.
  intros Ho1 Ho2 Hq.
  assert (Hmembers : forall A (m : World St -> outcome A * World St),
            keeps same_members m -> same_quotient (this w) (this (m w).2)).
  { intros A m Hk. destruct (Hk w) as (_ & _ & _ & H1 & H2). by split. }
  destruct o; simpl in *; try done.
  - assert (Hk : keeps same_quotient (set_nr_generators impl n)).
    { unfold set_nr_generators. repeat keeps_step.
      apply keeps_modify. by intros c. }
    apply Hk.
  - apply Hmembers. unfold contains. repeat keeps_step.
  - apply Hmembers. unfold less. repeat keeps_step.
  - by rewrite (quotient_semigroup_keeps_cached impl w a).
  - apply Hmembers. unfold cbegin_ntc. apply keeps_bind;
      [apply _ | apply init_non_trivial_classes_keeps_members
      | intros ?; repeat keeps_step].
  - apply Hmembers. unfold cend_ntc. apply keeps_bind;
      [apply _ | apply init_non_trivial_classes_keeps_members
      | intros ?; repeat keeps_step].
  - apply Hmembers. unfold nr_non_trivial_classes. apply keeps_bind;
      [apply _ | apply init_non_trivial_classes_keeps_members
      | intros ?; repeat keeps_step].
Qed.

Lemma perform_all_keeps_quotient {St} (impl : Impl St) (debug : bool)
    (ops : list operation) (w : World St) (a : address) :
  Forall (fun o => is_add_pair o = false /\ is_set_parent_semigroup o = false)
         ops ->
  _quotient (this w) = Some a ->
  same_quotient (this w) (this (perform_all impl debug ops w)).
Proof.
  intros Hops. revert w.
  induction Hops as [|o ops [Ho1 Ho2] _ IH]; intros w Hq; simpl; [done|].
  pose proof (perform_keeps_quotient impl debug o w a Ho1 Ho2 Hq) as Hstep.
  etransitivity; [exact Hstep|]. apply IH.
  destruct Hstep as [Hsame _]. by rewrite Hsame.
Qed.

(** C5, as stated, fails.  A two-sided congruence without pairs builds its
    quotient, at address 100; a parent is then attached at address 1, and
    no pair is ever added; the next [quotient_semigroup] returns the
    parent, not the quotient that was cached.  And on a new object with a
    parent attached, the first call builds nothing. *)
Lemma quotient_replaced_without_add_pair :
  let w1 := Example.after (quotient_semigroup Example.impl)
              (Example.fresh TWOSIDED) in
  let w2 := Example.after (set_parent_semigroup false (Some 1)) w1 in
  let w3 := Example.after (set_parent_semigroup false (Some 1))
              (Example.fresh TWOSIDED) in
  (quotient_semigroup Example.impl (Example.fresh TWOSIDED)).1
  = Returns (Some 100)
  /\ nr_generating_pairs (this w2) = 0
  /\ calls w2 = [call_is_quotient_obviously_infinite; call_quotient_impl]
  /\ (quotient_semigroup Example.impl w2).1 = Returns (Some 1)
  /\ quotient_semigroup Example.impl w3
     = (Returns (Some 1),
        {| this := this w3; sub := sub w3; heap := heap w3;
           deleted := deleted w3;
           calls := [call_is_quotient_obviously_infinite] |}).
Proof. vm_compute. repeat split. Qed.

(** C5, amended.  [quotient_semigroup] throws "the congruence must be
    two-sided" for every congruence that is not two-sided, whatever the
    finished flag and with nothing changed, and throws when the quotient is
    obviously infinite.  Otherwise, with no quotient cached, it asks the
    concrete class to build one, stores the pointer and returns it.  A
    cached quotient stays cached through every sequence of member function
    calls, returning or throwing, that holds no [add_pair] and no
    [set_parent_semigroup], and [quotient_semigroup] after such a sequence
    returns it and builds nothing.  An [add_pair] that records its pair
    leaves no quotient cached; a [set_parent_semigroup] that attaches
    another parent makes the parent the quotient when no pair is recorded
    and leaves the quotient alone otherwise.  These two are the only ways
    in which one member function call changes a cached quotient. *)
Theorem quotient_semigroup_cached {St} (impl : Impl St) (debug : bool)
    (w : World St) :
  (type (this w) <> TWOSIDED ->
   quotient_semigroup impl w = (Throws not_two_sided, w))
  /\ (type (this w) = TWOSIDED ->
      forall s1, is_quotient_obviously_infinite impl (sub w) = (Returns true, s1) ->
      (quotient_semigroup impl w).1 = Throws quotient_infinite)
  /\ (type (this w) = TWOSIDED ->
      forall s1 q s2,
        is_quotient_obviously_infinite impl (sub w) = (Returns false, s1) ->
        _quotient (this w) = nullptr ->
        quotient_impl impl s1 = (Returns q, s2) ->
        quotient_semigroup impl w
        = (Returns q,
           {| this := with_quotient q (this w); sub := s2; heap := heap w;
              deleted := deleted w;
              calls := calls w ++ [call_is_quotient_obviously_infinite;
                                   call_quotient_impl] |}))
  /\ (type (this w) = TWOSIDED ->
      forall (a : address) (ops : list operation),
        _quotient (this w) = Some a ->
        Forall (fun o => is_add_pair o = false
                         /\ is_set_parent_semigroup o = false) ops ->
        let w' := perform_all impl debug ops w in
        _quotient (this w') = Some a
        /\ forall s1,
             is_quotient_obviously_infinite impl (sub w') = (Returns false, s1) ->
             quotient_semigroup impl w'
             = (Returns (Some a),
                {| this := this w'; sub := s1; heap := heap w';
                   deleted := deleted w';
                   calls := calls w' ++ [call_is_quotient_obviously_infinite] |}))
  /\ (forall u v,
        validate_word (this w) u = Returns tt ->
        validate_word (this w) v = Returns tt ->
        u <> v -> parent_live w -> parent_equates w u v = false ->
        _quotient (this (add_pair impl u v w).2) = nullptr)
  /\ (forall prnt,
        (set_parent_semigroup debug prnt w).1 = Returns tt ->
        prnt <> _parent (this w) ->
        _quotient (this (set_parent_semigroup debug prnt w).2)
        = if bool_decide (_gen_pairs (this w) = []) then prnt
          else _quotient (this w))
  /\ (forall (a : address) (o : operation),
        _quotient (this w) = Some a ->
        let w' := perform impl debug o w in
        _quotient (this w') = Some a
        \/ (is_add_pair o = true
            /\ (exists u v, _gen_pairs (this w') = _gen_pairs (this w) ++ [(u, v)])
            /\ _quotient (this w') = nullptr)
        \/ (exists prnt,
              o = do_set_parent_semigroup prnt
              /\ _gen_pairs (this w) = []
              /\ prnt <> _parent (this w)
              /\ _quotient (this w') = prnt)).
Proof.
  split; [|split; [|split; [|split; [|split; [|split]]]]].
  - intros Ht. unfold quotient_semigroup, bind, get, throw; simpl.
    by rewrite bool_decide_eq_true_2.
  - intros Ht s1 Hinf.
    unfold quotient_semigroup, bind, get, virtual, throw; simpl.
    rewrite bool_decide_eq_false_2 by (rewrite Ht; tauto).
    by rewrite Hinf.
  - intros Ht s1 q s2 Hinf Hq Hbuild.
    unfold quotient_semigroup, bind, get, virtual, throw, ret, modify; simpl.
    rewrite bool_decide_eq_false_2 by (rewrite Ht; tauto).
    rewrite Hinf; simpl. rewrite Hq; simpl. rewrite Hbuild; simpl.
    by rewrite <- app_assoc.
  - intros Ht a ops Hq Hops w'.
    destruct (perform_all_keeps_quotient impl debug ops w a Hops Hq)
      as [Hsame Htype].
    fold w' in Hsame, Htype.
    assert (Hq' : _quotient (this w') = Some a) by (by rewrite Hsame).
    split; [exact Hq'|]. intros s1 Hinf.
    apply quotient_semigroup_hit; [|done|done].
    unfold type in *. by rewrite Htype.
  - intros u v Hu Hv Hne Hlive Hpar. by rewrite add_pair_records.
  - intros prnt Hret Hne. revert Hret. rewrite set_parent_semigroup_run.
    rewrite (bool_decide_eq_false_2 (prnt = _parent (this w))) by done.
    unfold attached.
    repeat case_match; simpl; try done;
      by destruct (bool_decide (_gen_pairs (this w) = [])).
  - intros a o Hq w'.
    destruct (is_add_pair o) eqn:Ho1.
    { destruct o as [|u v| | | | | | |]; try done. unfold w'. simpl.
      destruct (add_pair_this impl w u v) as [->|(_ & _ & _ & ->)].
      - by left.
      - right. left. split; [done|]. split; [by exists u, v | done]. }
    destruct (is_set_parent_semigroup o) eqn:Ho2.
    { destruct o as [| | | | |prnt| | |]; try done. unfold w'. simpl.
      rewrite set_parent_semigroup_run. unfold attached.
      destruct (bool_decide (prnt = _parent (this w))) eqn:Hp;
        [repeat case_match; by left|].
      apply bool_decide_eq_false_1 in Hp.
      repeat case_match; simpl; try (by left);
        case_bool_decide as Hnil; simpl; try (by left);
        right; right; eexists; (split; [reflexivity|]);
        (split; [exact Hnil|]); (split; [exact Hp|]); reflexivity. }
    left. destruct (perform_keeps_quotient impl debug o w a Ho1 Ho2 Hq) as [H _].
    unfold w'. by rewrite H.
Qed.

Lemma quotient_semigroup_cached_witness :
  let w0 := Example.fresh TWOSIDED in
  let w := (quotient_semigroup Example.impl w0).2 in
  let ops := [do_contains [0] [2]; do_set_nr_generators 5;
              do_quotient_semigroup; do_nr_non_trivial_classes] in
  type (this w0) = TWOSIDED
  /\ is_quotient_obviously_infinite Example.impl (sub w0) = (Returns false, sub w0)
  /\ _quotient (this w0) = nullptr
  /\ quotient_impl Example.impl (sub w0)
     = (Returns (Some 100), ((sub w0).1, Datatypes.S O))
  /\ (quotient_semigroup Example.impl w0).1 = Returns (Some 100)
  /\ type (this w) = TWOSIDED
  /\ _quotient (this w) = Some 100
  /\ Forall (fun o => is_add_pair o = false
                      /\ is_set_parent_semigroup o = false) ops
  /\ (quotient_semigroup Example.impl (perform_all Example.impl true ops w)).1
     = Returns (Some 100)
  /\ type (this (Example.fresh LEFT)) <> TWOSIDED
  /\ quotient_semigroup Example.impl (Example.fresh LEFT)
     = (Throws not_two_sided, Example.fresh LEFT).
Proof.
  intros w0 w ops.
  assert (Ht0 : type (this w0) = TWOSIDED) by reflexivity.
  assert (Hl : type (this (Example.fresh LEFT)) <> TWOSIDED) by discriminate.
  assert (Ht : type (this w) = TWOSIDED) by reflexivity.
  assert (Hq : _quotient (this w) = Some 100) by reflexivity.
  assert (Hops : Forall (fun o => is_add_pair o = false
                                  /\ is_set_parent_semigroup o = false) ops)
    by (repeat constructor).
  pose proof (quotient_semigroup_cached Example.impl true w0)
    as (_ & _ & Hbuild & _).
  pose proof (quotient_semigroup_cached Example.impl true w)
    as (_ & _ & _ & Hkeep & _).
  destruct (Hkeep Ht 100 ops Hq Hops) as [_ Hagain].
  split; [exact Ht0|]. split; [reflexivity|]. split; [reflexivity|].
  split; [reflexivity|].
  split; [by rewrite (Hbuild Ht0 (sub w0) (Some 100) ((sub w0).1, Datatypes.S O)
                        eq_refl eq_refl eq_refl)|].
  split; [exact Ht|]. split; [exact Hq|]. split; [exact Hops|].
  split; [by rewrite (Hagain _ eq_refl)|].
  split; [exact Hl|].
  exact (proj1 (quotient_semigroup_cached Example.impl true (Example.fresh LEFT)) Hl).
Defined.

(** After [add_pair] has deleted a parent that was the quotient, the calls
    that go through the parent pointer are undefined behaviour. *)
Lemma freed_parent_is_still_called :
  let w := Example.after (add_pair Example.impl [0] [1])
             (Example.after (set_parent_semigroup false (Some 1))
                (Example.after (set_nr_generators Example.impl 5)
                   (Example.fresh TWOSIDED))) in
  (add_pair Example.impl [0] [2] w).1 = Undefined
  /\ (nr_non_trivial_classes Example.impl false w).1 = Undefined.
Proof. vm_compute. by split. Qed.
